(** * License-plate prime finder: the primality index and nearest-prime search

    A shallow embedding of [simple_finder.py]: the trial-division oracle
    [is_prime], the packed-index lookup [is_prime_primesdb], the directional
    scanner [find_primes_near], the aggregator [find_closest_primes] and the
    base-36 helpers [to_base10] / [to_base36].

    Python integers are unbounded, so they are [Z]; [%] and [//] with a
    positive divisor are [Z.modulo] and [Z.div].  The module-level global
    [primesdb_data] and the file system / network behind [download_primesdb]
    are an explicit [world] threaded through every function that touches
    them.  Exceptions are an [outcome] type. *)

From Stdlib Require Import ZArith List Lia Bool String Ascii Strings.Byte.
From Stdlib Require Import QArith Qround DecimalString.
From Stdlib Require Import Sorting.Sorted Permutation.
Import ListNotations.
Open Scope Z_scope.

(** ** Python runtime: exceptions *)

Inductive exn : Type :=
| OverflowError
| TypeError
| KeyError
| IndexError
| ValueError.

Inductive outcome (A : Type) : Type :=
| Ret (a : A)
| Raise (e : exn).

Arguments Ret {A} a.
Arguments Raise {A} e.

Definition bind {A B : Type} (m : outcome A) (k : A -> outcome B) : outcome B :=
  match m with
  | Ret a => k a
  | Raise e => Raise e
  end.

Notation "x <- m ;; k" := (bind m (fun x => k))
  (at level 61, m at next level, right associativity).

(** ** Python runtime: [while] loops

    A loop is given by its body, a function from the loop variables to either
    the next loop variables ([inl]) or the value with which the loop (or the
    enclosing function) leaves ([inr]).  [run n] performs at most [n]
    iterations; it is the reference semantics, in which a loop terminates
    when some [n] reaches [inr].  [iter_loop k] performs at most [2 ^ k]
    iterations and is what the functions below execute. *)

Section Loops.
Context {St Res : Type}.
Variable body : St -> St + Res.

Fixpoint run (n : nat) (s : St) : St + Res :=
  match n with
  | O => inl s
  | S n' =>
      match body s with
      | inl s' => run n' s'
      | inr r => inr r
      end
  end.

Fixpoint iter_loop (k : nat) (s : St) : St + Res :=
  match k with
  | O => run 1 s
  | S k' =>
      match iter_loop k' s with
      | inl s' => iter_loop k' s'
      | inr r => inr r
      end
  end.

(** The loop started in [s] terminates with [r]. *)
Definition terminates_with (s : St) (r : Res) : Prop :=
  exists n, run n s = inr r.
End Loops.

(** ** Trial-division oracle *)

(** Body of [while i * i <= n]; leaving with [inr b] is [return b]. *)
Definition is_prime_body (n i : Z) : Z + bool :=
  if i * i <=? n then
    if (n mod i =? 0) || (n mod (i + 2) =? 0) then inr false
    else inl (i + 6)
  else inr true.

(** [2 ^ is_prime_fuel n] exceeds [n], hence the number of iterations. *)
Definition is_prime_fuel (n : Z) : nat := S (Z.to_nat (Z.log2 n)).

Definition is_prime (n : Z) : bool :=
  if n <=? 1 then false
  else if n <=? 3 then true
  else if (n mod 2 =? 0) || (n mod 3 =? 0) then false
  else
    match iter_loop (is_prime_body n) (is_prime_fuel n) 5 with
    | inr b => b
    | inl _ => false
    end.

(** The mathematical notion the oracle is compared with. *)
Definition prime_number (n : Z) : Prop :=
  2 <= n /\ forall d, 1 < d < n -> ~ (d | n).

(** ** binary64 arithmetic of the address computation

    [decade / 2 + 0.5] is evaluated in floating point.  Every value that
    occurs is an integer multiple of 1/2, so a float is held as its number
    of halves.  [round53] rounds an integer to 53 significant bits, nearest
    with ties to even, which is what one binary64 operation does to the
    exact result. *)

Definition round53_pos (m : Z) : Z :=
  let bits := Z.log2 m + 1 in
  if bits <=? 53 then m
  else
    let sh := bits - 53 in
    let q := Z.shiftr m sh in
    let r := Z.land m (Z.ones sh) in
    let half := Z.shiftl 1 (sh - 1) in
    let q' := if (half <? r) || ((r =? half) && Z.odd q) then q + 1 else q in
    Z.shiftl q' sh.

Definition round53 (m : Z) : Z := Z.sgn m * round53_pos (Z.abs m).

(** [a / 2] on integers: the correctly rounded quotient, or [OverflowError]
    when it does not fit a float (magnitude [2^1024] or more). *)
Definition true_div2 (a : Z) : outcome Z :=
  let h := round53 a in
  if 2 ^ 1025 <=? Z.abs h then Raise OverflowError else Ret h.

(** [x + 0.5] on floats. *)
Definition add_half (h : Z) : Z := round53 (h + 1).

(** [int(x)]: truncation toward zero. *)
Definition int_of_float (h : Z) : Z := Z.quot h 2.

(** [int(decade / 2 + 0.5) - 1] *)
Definition address_of (decade : Z) : outcome Z :=
  x <- true_div2 decade ;;
  Ret (int_of_float (add_half x) - 1).

(** ** The global index buffer and its loader *)

Definition bytes := list byte.

(** What one call of [download_primesdb] does to the global and what it
    returns: the buffer is read from the cache file or fetched and the call
    returns [True]; the buffer is assigned but a later statement raises, so
    the handler returns [False]; or nothing is assigned and the call returns
    [False] (bad status, or an exception before the assignment). *)
Inductive fetch : Type :=
| Loaded (content : bytes)
| LoadedThenRaised (content : bytes)
| NotLoaded.

Record world : Type := World {
  primesdb_data : option bytes;
  pending : list fetch   (* outcomes of the coming calls of the loader *)
}.

Definition download_primesdb (w : world) : bool * world :=
  match pending w with
  | [] => (false, w)
  | Loaded c :: rest => (true, World (Some c) rest)
  | LoadedThenRaised c :: rest => (false, World (Some c) rest)
  | NotLoaded :: rest => (false, World (primesdb_data w) rest)
  end.

(** ** Packed index *)

Definition len {A : Type} (l : list A) : Z := Z.of_nat (List.length l).

(** [buf[i]] for a [bytes] object: an integer in [0, 255]; negative indices
    count from the end. *)
Definition getitem (buf : bytes) (i : Z) : outcome Z :=
  let j := if i <? 0 then i + len buf else i in
  if (j <? 0) || (len buf <=? j) then Raise IndexError
  else
    match nth_error buf (Z.to_nat j) with
    | Some b => Ret (Z.of_N (Byte.to_N b))
    | None => Raise IndexError
    end.

(** The dict [{1: 0, 3: 1, 7: 2, 9: 3}]. *)
Definition bit_positions : list (Z * Z) := [(1, 0); (3, 1); (7, 2); (9, 3)].

Fixpoint dict_get (d : list (Z * Z)) (k : Z) : outcome Z :=
  match d with
  | [] => Raise KeyError
  | (k', v) :: d' => if k =? k' then Ret v else dict_get d' k
  end.

Definition in_list (x : Z) (l : list Z) : bool := existsb (Z.eqb x) l.

(** [len(primesdb_data)] on the global as it stands; raises on [None]. *)
Definition len_of (data : option bytes) : outcome Z :=
  match data with
  | Some buf => Ret (len buf)
  | None => Raise TypeError
  end.

(** [primesdb_data[i]] on the global as it stands; raises on [None]. *)
Definition subscript (data : option bytes) (i : Z) : outcome Z :=
  match data with
  | Some buf => getitem buf i
  | None => Raise TypeError
  end.

(** The part of [is_prime_primesdb] after the loading prologue, reading the
    global as it stands. *)
Definition lookup (data : option bytes) (number : Z) : outcome bool :=
  if number <? 2 then Ret false
  else if (number =? 2) || (number =? 3) || (number =? 5) || (number =? 7)
  then Ret true
  else if (number mod 2 =? 0) || (number mod 3 =? 0) || (number mod 5 =? 0)
  then Ret false
  else
    let last_digit := number mod 10 in
    if negb (in_list last_digit [1; 3; 7; 9]) then Ret false
    else
      let decade := number / 10 in
      address <- address_of decade ;;
      out_of_range <- (if address <? 0 then Ret true
                       else (n <- len_of data ;; Ret (address >=? n))) ;;
      if out_of_range then Ret (is_prime number)
      else
        bit_pos <- dict_get bit_positions last_digit ;;
        let bit_pos := if decade mod 2 =? 0 then bit_pos + 4 else bit_pos in
        byte_value <- subscript data address ;;
        let is_prime_value := Z.land (Z.shiftr byte_value bit_pos) 1 in
        Ret (is_prime_value =? 1).

Definition is_prime_primesdb (w : world) (number : Z) : outcome bool * world :=
  match primesdb_data w with
  | None =>
      let (ok, w') := download_primesdb w in
      if negb ok then (Ret (is_prime number), w')
      else (lookup (primesdb_data w') number, w')
  | Some _ => (lookup (primesdb_data w) number, w)
  end.

(** ** Nearest-prime scanner *)

Record scan_state : Type := ScanState {
  result : list Z;
  current : Z;
  scan_world : world
}.

(** Body of the [while] loop of [find_primes_near]. *)
Definition scan_body (count step : Z) (s : scan_state)
  : scan_state + (outcome (list Z) * world) :=
  if (len (result s) <? count) && (current s >? 1) && (current s <? 10 ^ 10)
  then
    match is_prime_primesdb (scan_world s) (current s) with
    | (Raise e, w') => inr (Raise e, w')
    | (Ret true, w') => inl (ScanState (result s ++ [current s]) (current s + step) w')
    | (Ret false, w') => inl (ScanState (result s) (current s + step) w')
    end
  else inr (Ret (result s), scan_world s).

(** [2 ^ scan_fuel] exceeds the [10 ^ 10] positions a scan can visit. *)
Definition scan_fuel : nat := 34.

(** [step = 1 if direction == 'larger' else -1] *)
Definition scan_step (direction : string) : Z :=
  if String.eqb direction "larger" then 1 else -1.

(** [current] after the [if direction == 'smaller' ... else ...] adjustment. *)
Definition scan_start (number : Z) (direction : string) : Z :=
  if String.eqb direction "smaller" then number - 1 else number + 1.

(** [find_primes_near] from [result = []] on. *)
Definition scan_from (w : world) (number count : Z) (direction : string)
  : outcome (list Z) * world :=
  let step := scan_step direction in
  let current := scan_start number direction in
  match iter_loop (scan_body count step) scan_fuel (ScanState [] current w) with
  | inr r => r
  | inl s => (Ret (result s), scan_world s)
  end.

Definition find_primes_near (w : world) (number count : Z) (direction : string)
  : outcome (list Z) * world :=
  match primesdb_data w with
  | None =>
      let (ok, w') := download_primesdb w in
      if negb ok then (Ret [], w')
      else scan_from w' number count direction
  | Some _ => scan_from w number count direction
  end.

(** ** Base-36 helpers

    [text] is a Python string whose code points are all below 256, one
    [ascii] per code point. *)

Definition ord (c : ascii) : Z := Z.of_N (N_of_ascii c).

(** [char.isdigit()]: the decimal digits and the superscripts two, three and
    one (U+00B2, U+00B3, U+00B9). *)
Definition isdigit (c : ascii) : bool :=
  let k := ord c in
  ((48 <=? k) && (k <=? 57)) || (k =? 178) || (k =? 179) || (k =? 185).

(** [int(char)] accepts decimal digits only. *)
Definition int_of_char (c : ascii) : outcome Z :=
  let k := ord c in
  if (48 <=? k) && (k <=? 57) then Ret (k - 48) else Raise ValueError.

(** [ord(char.upper())].  Below 256 the letters a-z and the accented letters
    U+00E0-U+00FE (the division sign apart) move down by 32; the micro sign
    and y-diaeresis map above 255; sharp s becomes the two-character string
    SS, on which [ord] raises. *)
Definition ord_upper (c : ascii) : outcome Z :=
  let k := ord c in
  if (97 <=? k) && (k <=? 122) then Ret (k - 32)
  else if (224 <=? k) && (k <=? 254) && negb (k =? 247) then Ret (k - 32)
  else if k =? 181 then Ret 924
  else if k =? 255 then Ret 376
  else if k =? 223 then Raise TypeError
  else Ret k.

(** The [value] computed for one character in the loop of [to_base10]. *)
Definition char_value (char : ascii) : outcome Z :=
  if isdigit char then int_of_char char
  else (u <- ord_upper char ;; Ret (u - ord "A" + 10)).

(** The [for] loop of [to_base10], from an intermediate [result]. *)
Fixpoint to_base10_from (result : Z) (text : string) : outcome Z :=
  match text with
  | EmptyString => Ret result
  | String char text' =>
      value <- char_value char ;;
      to_base10_from (result * 36 + value) text'
  end.

Definition to_base10 (text : string) : outcome Z := to_base10_from 0 text.

Definition chars : string := "0123456789ABCDEFGHIJKLMNOPQRSTUVWXYZ".

(** [s[i]] for a string and an index that is not negative. *)
Definition char_at (s : string) (i : Z) : outcome ascii :=
  match String.get (Z.to_nat i) s with
  | Some c => Ret c
  | None => Raise IndexError
  end.

(** Body of [while number > 0] in [to_base36]; the loop variables are
    [(number, result)]. *)
Definition to_base36_body (s : Z * string) : (Z * string) + outcome string :=
  let (number, result) := s in
  if number >? 0 then
    match char_at chars (number mod 36) with
    | Ret c => inl (number / 36, String c result)
    | Raise e => inr (Raise e)
    end
  else inr (Ret result).

(** [2 ^ to_base36_fuel number] exceeds [number], hence the number of digits. *)
Definition to_base36_fuel (number : Z) : nat := S (Z.to_nat (Z.log2 number)).

Definition to_base36 (number : Z) : outcome string :=
  if number =? 0 then Ret "0"%string
  else
    match iter_loop to_base36_body (to_base36_fuel number) (number, EmptyString) with
    | inr r => r
    | inl (_, result) => Ret result
    end.

(** [str(n)] for an integer. *)
Definition str (n : Z) : string := DecimalString.NilZero.string_of_int (Z.to_int n).

(** ** Python runtime: [list.sort(key=...)] and [l[:stop]]

    [list.sort] is stable.  The output of a stable sort is determined by its
    input (see [sort_by_unique]), so insertion from the right, each element
    placed before the first one whose key is not smaller, computes it. *)

Section SortBy.
Context {A : Type}.
Variable key : A -> Z.

Fixpoint insert_by (x : A) (l : list A) : list A :=
  match l with
  | [] => [x]
  | y :: l' => if key x <=? key y then x :: y :: l' else y :: insert_by x l'
  end.

Fixpoint sort_by (l : list A) : list A :=
  match l with
  | [] => []
  | x :: l' => insert_by x (sort_by l')
  end.

(** Order of two elements in the sorted list: by key, and for equal keys
    as [P] relates them. *)
Definition tie_ordered (P : A -> A -> Prop) (a b : A) : Prop :=
  key a < key b \/ (key a = key b /\ P a b).

(** The elements of key [k], in the order of the list. *)
Definition with_key (k : Z) (l : list A) : list A :=
  filter (fun a => key a =? k) l.

(** [l'] is a stable sort of [l]: the keys ascend and the elements of
    each key are those of [l], in the order they have there. *)
Definition stable_sort_of (l l' : list A) : Prop :=
  ForallOrdPairs (fun a b => key a <= key b) l' /\
  forall k, with_key k l' = with_key k l.
End SortBy.

(** [l[:stop]]; a negative [stop] counts from the end. *)
Definition slice_to {A : Type} (l : list A) (stop : Z) : list A :=
  if stop <? 0 then firstn (Z.to_nat (len l + stop)) l
  else firstn (Z.to_nat stop) l.

(** ** Closest-primes aggregator *)

Record entry : Type := Entry {
  prime_base10 : Z;
  prime_base36 : string;
  distance : Z
}.

(** The list of [(prime, distance)] tuples before sorting. *)
Definition candidates (number : Z) (larger_primes smaller_primes : list Z)
  : list (Z * Z) :=
  map (fun prime => (prime, prime - number)) larger_primes
  ++ map (fun prime => (prime, number - prime)) smaller_primes.

(** The loop that turns the tuples into dicts. *)
Fixpoint build_results (has_letters : bool) (result : list (Z * Z))
  : outcome (list entry) :=
  match result with
  | [] => Ret []
  | (prime, distance) :: rest =>
      prime_base36 <- (if has_letters then to_base36 prime else Ret (str prime)) ;;
      results <- build_results has_letters rest ;;
      Ret (Entry prime prime_base36 distance :: results)
  end.

(** [find_closest_primes]; the [except Exception] handler returns the empty
    list for whatever is raised inside the [try] block. *)
Definition find_closest_primes (w : world) (number count : Z) (has_letters : bool)
  : list entry * world :=
  let (r1, w1) := find_primes_near w number count "larger" in
  match r1 with
  | Raise _ => ([], w1)
  | Ret larger_primes =>
      let (r2, w2) := find_primes_near w1 number count "smaller" in
      match r2 with
      | Raise _ => ([], w2)
      | Ret smaller_primes =>
          let result := candidates number larger_primes smaller_primes in
          let result := sort_by snd result in
          let result := slice_to result count in
          match build_results has_letters result with
          | Ret results => (results, w2)
          | Raise _ => ([], w2)
          end
      end
  end.

(** ** A sample of the index

    The first six bytes of an index in the format of the description: the
    decades 1 to 12, that is the numbers 11 to 129. *)
Definition sample_index : bytes := [xaf; x75; x5a; xab; xf4; x42].

(** The world after a successful load, with nothing left to fetch. *)
Definition loaded (buf : bytes) : world := World (Some buf) [].

(** ** Python runtime: [range], [enumerate], list indexing, comprehensions *)

(** [range(start, stop)] *)
Definition range (start stop : Z) : list Z :=
  map (fun i => start + Z.of_nat i) (seq 0 (Z.to_nat (stop - start))).

(** [enumerate(l)] *)
Definition enumerate {A : Type} (l : list A) : list (Z * A) :=
  combine (range 0 (len l)) l.

(** [l[i]] for a list; negative indices count from the end. *)
Definition list_getitem {A : Type} (l : list A) (i : Z) : outcome A :=
  let j := if i <? 0 then i + len l else i in
  if (j <? 0) || (len l <=? j) then Raise IndexError
  else
    match nth_error l (Z.to_nat j) with
    | Some x => Ret x
    | None => Raise IndexError
    end.

(** [[f(x) for x in l]], where [f] may raise. *)
Fixpoint comprehension {A B : Type} (f : A -> outcome B) (l : list A)
  : outcome (list B) :=
  match l with
  | [] => Ret []
  | x :: l' =>
      y <- f x ;;
      ys <- comprehension f l' ;;
      Ret (y :: ys)
  end.

(** ** In-memory table of [get_db_connection]

    What the function puts into the table [primes] when none of the
    database files exists. *)

(** The list literal [test_primes] starts from. *)
Definition small_primes : list Z :=
  [2; 3; 5; 7; 11; 13; 17; 19; 23; 29; 31; 37; 41; 43; 47; 53; 59; 61; 67; 71].

(** [test_primes] after the loop over [range(100, 10000)]. *)
Definition test_primes : list Z :=
  fold_left (fun test_primes i => if is_prime i then test_primes ++ [i]
                                  else test_primes)
            (range 100 10000) small_primes.

(** A row [(id, value, created_at)] of the table. *)
Record row : Type := PrimeRow {
  row_id : Z;
  value : Z;
  created_at : Z
}.

(** The rows inserted by the loop over [enumerate(test_primes)]. *)
Definition inserted_rows : list row :=
  map (fun ip => PrimeRow (fst ip + 1) (snd ip) 0) (enumerate test_primes).

(** ** Combinations shown by [search] *)

(** The dicts with keys [part1], [part2], [total_distance] and, in the
    second branch, [index]. *)
Record combination : Type := Combination {
  part1 : entry;
  part2 : entry;
  total_distance : Z;
  index : option (Z * Z)
}.

Definition max_combinations : Z := 9.

(** The nested loops of the branch [count <= 3]. *)
Definition shown_combinations (part1_primes part2_primes : list entry)
  : list combination :=
  flat_map (fun p1 =>
              map (fun p2 => Combination p1 p2 (distance p1 + distance p2) None)
                  part2_primes)
           part1_primes.

(** The nested loops of the other branch, over [enumerate]. *)
Definition all_combinations (part1_primes part2_primes : list entry)
  : list combination :=
  flat_map (fun ip1 =>
              map (fun jp2 =>
                     Combination (snd ip1) (snd jp2)
                                 (distance (snd ip1) + distance (snd jp2))
                                 (Some (fst ip1, fst jp2)))
                  (enumerate part2_primes))
           (enumerate part1_primes).

(** The block of [search] that fills [random_combinations].  [sample]
    stands for [random.sample]: it is given the population and the number
    of elements to draw. *)
Definition random_combinations (sample : list Z -> Z -> list Z) (count : Z)
           (part1_primes part2_primes : list entry) : outcome (list combination) :=
  if count <=? 3 then Ret (shown_combinations part1_primes part2_primes)
  else
    let all_combinations := all_combinations part1_primes part2_primes in
    if len all_combinations >? max_combinations then
      let random_indices := sample (range 0 (len all_combinations)) max_combinations in
      comprehension (list_getitem all_combinations) random_indices
    else Ret all_combinations.

(** * Vocabulary of the properties *)

(** No divisor of [n] strictly between 1 and [i]. *)
Definition no_divisor_below (n i : Z) : Prop :=
  forall d, 1 < d < i -> ~ (d | n).

(** What the iterations of the trial division keep. *)
Definition is_prime_inv (n i : Z) : Prop :=
  5 <= i /\ i mod 6 = 5 /\ no_divisor_below n i.

(** The address and the bit position in the words of the format
    description: [floor (decade / 2 + 0.5) - 1] over the rationals, and the
    index of the last digit in (1, 3, 7, 9), plus 4 for an even decade. *)
Definition spec_address (n : Z) : Z :=
  Qfloor (inject_Z (n / 10) / inject_Z 2 + (1 # 2))%Q - 1.

(** Position of [x] in [l], from 0. *)
Fixpoint index_of (x : Z) (l : list Z) : Z :=
  match l with
  | [] => 0
  | y :: l' => if x =? y then 0 else 1 + index_of x l'
  end.

(** The bit position in the words of the format description. *)
Definition spec_bit_pos (n : Z) : Z :=
  index_of (n mod 10) [1; 3; 7; 9] + (if Z.even (n / 10) then 4 else 0).

(** The byte the buffer holds at an address inside it. *)
Definition byte_at (buf : bytes) (a : Z) : Z :=
  match nth_error buf (Z.to_nat a) with
  | Some b => Z.of_N (Byte.to_N b)
  | None => 0
  end.

(** The numbers that pass every fast-path test of [is_prime_primesdb]. *)
Definition survives_fast_path (n : Z) : Prop :=
  2 <= n /\ n <> 2 /\ n <> 3 /\ n <> 5 /\ n <> 7 /\
  n mod 2 <> 0 /\ n mod 3 <> 0 /\ n mod 5 <> 0 /\
  In (n mod 10) [1; 3; 7; 9].

(** A world that holds a buffer is left as it is. *)
Definition data_kept (w w' : world) : Prop :=
  forall buf, primesdb_data w = Some buf -> w' = w.

(** The loop condition. *)
Definition scan_guard (count : Z) (s : scan_state) : Prop :=
  len (result s) < count /\ 1 < current s < 10 ^ 10.

(** The variant of the loop: the distance of the cursor to the bound it
    moves toward, and nothing once it is outside the scanned range. *)
Definition scan_variant (step : Z) (s : scan_state) : nat :=
  if (1 <? current s) && (current s <? 10 ^ 10) then
    if step =? 1 then Z.to_nat (10 ^ 10 - current s)
    else Z.to_nat (current s - 1)
  else 0%nat.

(** What the upward scan keeps: cursor and collected numbers above the start. *)
Definition above (number : Z) (s : scan_state) : Prop :=
  number < current s /\ Forall (fun p => number < p) (result s).

(** What the downward scan keeps: cursor and collected numbers below the start. *)
Definition below (number : Z) (s : scan_state) : Prop :=
  current s < number /\ Forall (fun p => p < number) (result s).

(** Where a downward scan started one above [number] stands: on the start
    cursor, on [number] itself, or past it with [number] collected. *)
Definition passing (w : world) (number count : Z) (s : scan_state) : Prop :=
  scan_world s = w /\
  ((current s = number + 1 /\ result s = []) \/
   (current s = number /\ len (result s) <= 1 /\ (2 <= count \/ result s = [])) \/
   (current s < number /\ In number (result s))).

(** The scan the format description asks for when no buffer is available:
    the loop of [find_primes_near] with the oracle in place of the lookup. *)
Definition oracle_scan_body (count step : Z) (s : list Z * Z)
  : (list Z * Z) + list Z :=
  let (result, current) := s in
  if (len result <? count) && (current >? 1) && (current <? 10 ^ 10) then
    inl (if is_prime current then result ++ [current] else result, current + step)
  else inr result.

(** The list that scan returns. *)
Definition oracle_scan (number count : Z) (direction : string) : list Z :=
  match iter_loop (oracle_scan_body count (scan_step direction)) scan_fuel
                  ([], scan_start number direction) with
  | inr r => r
  | inl (result, _) => result
  end.

(** What an iteration of [to_base36] keeps: decoding the digits produced so
    far, starting from what is left of the number, gives the number. *)
Definition to_base36_inv (n : Z) (s : Z * string) : Prop :=
  0 <= fst s /\
  to_base10_from (fst s) (snd s) = Ret n /\
  forall c, In c (list_ascii_of_string (snd s)) -> In c (list_ascii_of_string chars).

(** The tuple an entry was built from. *)
Definition tuple_of (e : entry) : Z * Z := (prime_base10 e, distance e).

(** In the candidate list no downward entry comes before an upward one. *)
Definition not_down_up (number : Z) (a b : Z * Z) : Prop :=
  ~ (fst a < number /\ number < fst b).

(** [q] lies where a scan of direction [step] from [start] has been when
    its cursor stands on [cur]: from [start] on, short of [cur]. *)
Definition visited (step start cur q : Z) : Prop :=
  0 <= step * (q - start) < step * (cur - start).

(** The lookup on the buffer answers [True] for [p]. *)
Definition reported_prime (buf : bytes) (p : Z) : Prop :=
  lookup (Some buf) p = Ret true.

(** What the loop of the scanner keeps with a loaded buffer: the world, the
    side of the start the cursor is on, the bound on the length, the order
    of the collected numbers, and that they are exactly the visited numbers
    the lookup reports prime. *)
Definition scanned (w : world) (buf : bytes) (count step start : Z)
           (s : scan_state) : Prop :=
  scan_world s = w /\
  0 <= step * (current s - start) /\
  len (result s) <= Z.max 0 count /\
  ForallOrdPairs (fun a b => step * a < step * b) (result s) /\
  Forall (fun p => visited step start (current s) p /\ 1 < p < 10 ^ 10 /\
                   reported_prime buf p) (result s) /\
  forall q, visited step start (current s) q -> reported_prime buf q ->
            In q (result s).

(** The buffer holds the truth: for every number that passed the fast path
    and whose address falls inside the buffer, the bit at the address and
    position of the format description is set exactly when the number is
    prime according to the oracle. *)
Definition index_correct (buf : bytes) : Prop :=
  forall n, survives_fast_path n -> 0 <= spec_address n < len buf ->
            Z.testbit (byte_at buf (spec_address n)) (spec_bit_pos n) = is_prime n.

(** One of the 36 digits [to_base36] writes. *)
Definition base36_digit (c : ascii) : Prop :=
  In c (list_ascii_of_string chars).

(** The strings [to_base36] can return for a number that is not negative:
    the string 0, or digits of which the first is not 0. *)
Definition canonical_base36 (s : string) : Prop :=
  s = "0"%string \/
  exists c s', s = String c s' /\ base36_digit c /\ c <> "0"%char /\
               Forall base36_digit (list_ascii_of_string s').

(** A decimal digit or an ASCII letter of either case. *)
Definition ascii_alnum (c : ascii) : Prop :=
  48 <= ord c <= 57 \/ 65 <= ord c <= 90 \/ 97 <= ord c <= 122.

(** The upper-case form of an ASCII character. *)
Definition ascii_upper (c : ascii) : ascii :=
  if (97 <=? ord c) && (ord c <=? 122)
  then ascii_of_N (Z.to_N (ord c - 32)) else c.

Fixpoint string_upper (s : string) : string :=
  match s with
  | EmptyString => EmptyString
  | String c s' => String (ascii_upper c) (string_upper s')
  end.

(** What [random.sample] promises when asked for no more elements than the
    population has: that many elements, taken from the population, at
    distinct positions (so distinct, when the population has no repeats). *)
Definition valid_sample (sample : list Z -> Z -> list Z) : Prop :=
  forall population k,
    0 <= k <= len population ->
    len (sample population k) = k /\
    incl (sample population k) population /\
    (NoDup population -> NoDup (sample population k)).

(** * Properties *)

(** ** Loops *)

Section LoopFacts.
Context {St Res : Type}.
Variable body : St -> St + Res.

Lemma run_add (n m : nat) (s : St) :
  run body (n + m) s =
  match run body n s with
  | inl s' => run body m s'
  | inr r => inr r
  end.
Proof.
  revert s; induction n as [|n IH]; intros s; simpl; [reflexivity|].
  destruct (body s); [apply IH | reflexivity].
Qed.

Lemma run_inr_more (n m : nat) (s : St) (r : Res) :
  run body n s = inr r -> (n <= m)%nat -> run body m s = inr r.
Proof.
  intros Hrun Hle.
  replace m with (n + (m - n))%nat by lia.
  rewrite run_add, Hrun; reflexivity.
Qed.

Lemma iter_loop_run (k : nat) (s : St) :
  iter_loop body k s = run body (2 ^ k) s.
Proof.
  revert s; induction k as [|k IH]; intros s; [reflexivity|].
  cbn [iter_loop Nat.pow Nat.mul].
  rewrite Nat.add_0_r, run_add, <- IH.
  destruct (iter_loop body k s); [apply IH | reflexivity].
Qed.

(** A loop with a variant that decreases at every iteration leaves within
    that many iterations. *)
Lemma run_measure (mu : St -> nat) :
  (forall s s', body s = inl s' -> (mu s' < mu s)%nat) ->
  forall n s, (mu s < n)%nat -> exists r, run body n s = inr r.
Proof.
  intros Hdec; induction n as [|n IH]; intros s Hlt; [lia|].
  simpl; destruct (body s) as [s'|r] eqn:Hb; [|eauto].
  apply IH; specialize (Hdec _ _ Hb); lia.
Qed.

Lemma iter_loop_measure (mu : St -> nat) (k : nat) (s : St) :
  (forall s s', body s = inl s' -> (mu s' < mu s)%nat) ->
  (mu s < 2 ^ k)%nat ->
  exists r, iter_loop body k s = inr r.
Proof.
  intros Hdec Hlt; rewrite iter_loop_run; eapply run_measure; eauto.
Qed.

Lemma iter_loop_terminates (k : nat) (s : St) (r : Res) :
  iter_loop body k s = inr r -> terminates_with body s r.
Proof. intros H; exists (2 ^ k)%nat; rewrite <- iter_loop_run; exact H. Qed.

(** An invariant of the iterations holds of the state in which the loop
    leaves. *)
Lemma run_invariant (I : St -> Prop) :
  (forall s s', I s -> body s = inl s' -> I s') ->
  forall n s r, I s -> run body n s = inr r ->
  exists s', I s' /\ body s' = inr r.
Proof.
  intros Hpres; induction n as [|n IH]; intros s r Hs Hrun; [discriminate|].
  simpl in Hrun; destruct (body s) as [s'|r'] eqn:Hb.
  - apply (IH s'); [eapply Hpres; eassumption | exact Hrun].
  - injection Hrun as <-; eauto.
Qed.

Lemma iter_loop_invariant (I : St -> Prop) (k : nat) (s : St) (r : Res) :
  (forall s s', I s -> body s = inl s' -> I s') ->
  I s -> iter_loop body k s = inr r ->
  exists s', I s' /\ body s' = inr r.
Proof.
  intros Hpres Hs; rewrite iter_loop_run; eapply run_invariant; eauto.
Qed.
End LoopFacts.

(** ** The oracle is trial division done right *)

Lemma pow2_log2_gt (n : Z) : 0 < n -> (Z.to_nat n < 2 ^ S (Z.to_nat (Z.log2 n)))%nat.
Proof.
  intros Hn.
  pose proof (Z.log2_nonneg n) as Hl.
  destruct (Z.log2_spec n Hn) as [_ Hhi].
  apply Nat2Z.inj_lt.
  rewrite Nat2Z.inj_pow; change (Z.of_nat 2) with 2.
  rewrite Nat2Z.inj_succ, !Z2Nat.id by lia.
  exact Hhi.
Qed.

(** *** Termination of the trial division *)

Lemma is_prime_loop_terminates (n : Z) :
  3 < n -> exists b, iter_loop (is_prime_body n) (is_prime_fuel n) 5 = inr b.
Proof.
  intros Hn.
  apply iter_loop_measure with (mu := fun i => Z.to_nat (n + 1 - i)).
  - intros i i'; unfold is_prime_body.
    destruct (Z.leb_spec (i * i) n) as [Hle|]; [|discriminate].
    destruct (_ || _); [discriminate|].
    intros [= <-]; nia.
  - unfold is_prime_fuel.
    pose proof (pow2_log2_gt n ltac:(lia)); lia.
Qed.

(** *** Correctness of the trial division *)

Lemma divide_trans_not (a b n : Z) : (a | b) -> ~ (a | n) -> ~ (b | n).
Proof. intros Hab Hn Hb; apply Hn; eapply Z.divide_trans; eauto. Qed.

Lemma is_prime_inv_init (n : Z) :
  n mod 2 <> 0 -> n mod 3 <> 0 -> is_prime_inv n 5.
Proof.
  intros H2 H3; repeat split; try lia.
  intros d Hd.
  assert (~ (2 | n)) as N2 by (rewrite <- Z.mod_divide by lia; exact H2).
  assert (~ (3 | n)) as N3 by (rewrite <- Z.mod_divide by lia; exact H3).
  assert (d = 2 \/ d = 3 \/ d = 4) as [->|[->| ->]] by lia; auto.
  apply (divide_trans_not 2); [exists 2; reflexivity | exact N2].
Qed.

Lemma is_prime_inv_step (n i : Z) :
  n mod 2 <> 0 -> n mod 3 <> 0 ->
  is_prime_inv n i -> n mod i <> 0 -> n mod (i + 2) <> 0 ->
  is_prime_inv n (i + 6).
Proof.
  intros H2 H3 (Hi & Hmod & Hno) Hni Hni2.
  assert (~ (2 | n)) as N2 by (rewrite <- Z.mod_divide by lia; exact H2).
  assert (~ (3 | n)) as N3 by (rewrite <- Z.mod_divide by lia; exact H3).
  repeat split; [lia | |].
  - rewrite <- Zplus_mod_idemp_l, Hmod; reflexivity.
  - intros d Hd.
    destruct (Z_lt_ge_dec d i) as [Hlt|Hge]; [apply Hno; lia|].
    pose proof (Z.div_mod i 6 ltac:(lia)) as Hdm; rewrite Hmod in Hdm.
    set (k := i / 6) in *.
    assert (d = i \/ d = i + 1 \/ d = i + 2 \/ d = i + 3 \/ d = i + 4 \/ d = i + 5)
      as [->|[->|[->|[->|[->| ->]]]]] by lia.
    + rewrite <- Z.mod_divide by lia; exact Hni.
    + apply (divide_trans_not 2); [exists (3 * k + 3); lia | exact N2].
    + rewrite <- Z.mod_divide by lia; exact Hni2.
    + apply (divide_trans_not 2); [exists (3 * k + 4); lia | exact N2].
    + apply (divide_trans_not 3); [exists (2 * k + 3); lia | exact N3].
    + apply (divide_trans_not 2); [exists (3 * k + 5); lia | exact N2].
Qed.

(** With no divisor below [i] and [n < i * i], [n] has no proper divisor. *)
Lemma no_divisor_below_sqrt (n i : Z) :
  1 < n -> 0 < i -> n < i * i -> no_divisor_below n i -> prime_number n.
Proof.
  intros Hn Hi Hsq Hno; split; [lia|].
  intros d Hd [q Hq].
  assert (1 < q < n) as Hqr by nia.
  destruct (Z_lt_ge_dec d i) as [Hlt|Hge].
  - apply (Hno d); [lia | exists q; exact Hq].
  - destruct (Z_lt_ge_dec q i) as [Hlt'|Hge'].
    + apply (Hno q); [lia | exists d; lia].
    + nia.
Qed.

Lemma is_prime_body_exit (n i : Z) (b : bool) :
  3 < n -> is_prime_inv n i -> is_prime_body n i = inr b ->
  (b = true <-> prime_number n).
Proof.
  intros Hn (Hi & _ & Hno); unfold is_prime_body.
  destruct (Z.leb_spec (i * i) n) as [Hle|Hgt].
  - destruct (_ || _) eqn:Hdiv; [|discriminate].
    intros [= <-]; split; [discriminate|].
    intros [_ Hp]; exfalso.
    apply orb_true_iff in Hdiv as [Hd|Hd]; apply Z.eqb_eq in Hd;
      apply Z.mod_divide in Hd; try lia.
    + apply (Hp i); [nia | exact Hd].
    + apply (Hp (i + 2)); [nia | exact Hd].
  - intros [= <-]; split; [intros _|reflexivity].
    apply (no_divisor_below_sqrt n i); auto; lia.
Qed.

Lemma is_prime_body_step (n i i' : Z) :
  n mod 2 <> 0 -> n mod 3 <> 0 ->
  is_prime_inv n i -> is_prime_body n i = inl i' -> is_prime_inv n i'.
Proof.
  intros H2 H3 Hinv; unfold is_prime_body.
  destruct (_ <=? _); [|discriminate].
  destruct (_ || _) eqn:Hdiv; [discriminate|].
  intros [= <-].
  apply orb_false_iff in Hdiv as [Hd1 Hd2].
  apply Z.eqb_neq in Hd1, Hd2.
  apply is_prime_inv_step; auto.
Qed.

Lemma is_prime_correct (n : Z) : is_prime n = true <-> prime_number n.
Proof.
  unfold is_prime.
  destruct (Z.leb_spec n 1) as [H1|H1].
  { split; [discriminate | intros [Hp _]; lia]. }
  destruct (Z.leb_spec n 3) as [H3|H3].
  { split; [intros _|reflexivity].
    split; [lia|]. intros d Hd [q Hq]. assert (n = 2 \/ n = 3) as [->| ->] by lia; [lia|].
    assert (d = 2) as -> by lia; lia. }
  destruct (_ || _) eqn:Hdiv.
  { split; [discriminate|]. intros [_ Hp]; exfalso.
    apply orb_true_iff in Hdiv as [Hd|Hd]; apply Z.eqb_eq in Hd;
      apply Z.mod_divide in Hd; try lia.
    - apply (Hp 2); [lia | exact Hd].
    - apply (Hp 3); [lia | exact Hd]. }
  apply orb_false_iff in Hdiv as [Hd2 Hd3].
  apply Z.eqb_neq in Hd2, Hd3.
  destruct (is_prime_loop_terminates n H3) as [b Hb]; rewrite Hb.
  destruct (iter_loop_invariant (is_prime_body n) (is_prime_inv n) _ _ _
              (fun s s' => is_prime_body_step n s s' Hd2 Hd3)
              (is_prime_inv_init n Hd2 Hd3) Hb) as (i & Hinv & Hexit).
  eapply is_prime_body_exit; eauto.
Qed.

(** C1: for every integer [n] (the non-negative ones in particular),
    [is_prime n] is true exactly when [n] is prime, that is [n >= 2] and no
    [d] with [1 < d < n] divides [n]; [n <= 1] gives false, 2 and 3 give
    true, and every other multiple of 2 or 3 gives false. *)
Theorem C1_is_prime_decides_primality :
  forall n : Z,
    (is_prime n = true <-> prime_number n) /\
    (n <= 1 -> is_prime n = false) /\
    (n = 2 \/ n = 3 -> is_prime n = true) /\
    ((n mod 2 = 0 \/ n mod 3 = 0) -> n <> 2 -> n <> 3 -> is_prime n = false).
Proof.
  intros n; split; [apply is_prime_correct|].
  unfold is_prime; repeat split.
  - intros H; destruct (Z.leb_spec n 1); [reflexivity | lia].
  - intros [-> | ->]; reflexivity.
  - intros Hdiv H2 H3.
    destruct (Z.leb_spec n 1) as [|H1]; [reflexivity|].
    destruct (Z.leb_spec n 3) as [Hle|_]; [lia|].
    destruct Hdiv as [-> | ->]; [reflexivity | now rewrite orb_true_r].
Qed.

(** ** The address computation in floating point *)

Lemma round53_pos_exact (m : Z) : 0 <= m < 2 ^ 53 -> round53_pos m = m.
Proof.
  intros Hm; unfold round53_pos.
  destruct (Z.leb_spec (Z.log2 m + 1) 53) as [_|Hgt]; [reflexivity|].
  exfalso.
  destruct (Z.eq_dec m 0) as [-> | Hnz]; [simpl in Hgt; lia|].
  assert (Z.log2 m < 53) by (apply Z.log2_lt_pow2; lia).
  lia.
Qed.

Lemma round53_exact (m : Z) : 0 <= m <= 2 ^ 53 -> round53 m = m.
Proof.
  intros Hm; unfold round53.
  destruct (Z.eq_dec m (2 ^ 53)) as [-> | Hne]; [reflexivity|].
  destruct (Z.eq_dec m 0) as [-> | Hnz]; [reflexivity|].
  rewrite Z.sgn_pos, Z.abs_eq, round53_pos_exact by lia; lia.
Qed.

(** For decades below [2 ^ 53] every float operation is exact. *)
Lemma address_of_exact (decade : Z) :
  0 <= decade < 2 ^ 53 -> address_of decade = Ret ((decade + 1) / 2 - 1).
Proof.
  intros Hd; unfold address_of, true_div2, add_half, int_of_float.
  rewrite (round53_exact decade) by lia.
  destruct (Z.leb_spec (2 ^ 1025) (Z.abs decade)) as [Hbig|_].
  - exfalso. assert (2 ^ 53 < 2 ^ 1025) by (apply Z.pow_lt_mono_r; lia). lia.
  - simpl. rewrite round53_exact by lia.
    rewrite Z.quot_div_nonneg by lia; reflexivity.
Qed.

Lemma spec_address_eq (n : Z) : spec_address n = (n / 10 + 1) / 2 - 1.
Proof.
  unfold spec_address, Qfloor, Qplus, Qdiv, Qmult, Qinv, inject_Z; simpl.
  f_equal.
  replace (n / 10 * 1 * 2 + 2) with ((n / 10 + 1) * 2) by lia.
  change 4 with (2 * 2).
  rewrite Z.div_mul_cancel_r by lia; reflexivity.
Qed.

(** ** The packed-index lookup *)

Lemma bit_test_testbit (b p : Z) :
  0 <= p -> (Z.land (Z.shiftr b p) 1 =? 1) = Z.testbit b p.
Proof.
  intros Hp.
  change 1 with (Z.ones 1) at 1.
  rewrite Z.land_ones by lia.
  change (2 ^ 1) with 2.
  rewrite Zmod_odd, <- Z.bit0_odd, Z.shiftr_spec by lia.
  rewrite Z.add_0_l.
  destruct (Z.testbit b p); reflexivity.
Qed.

(** Once the buffer is loaded the loader is not called again and the world
    is left as it is. *)
Lemma is_prime_primesdb_loaded (w : world) (buf : bytes) (number : Z) :
  primesdb_data w = Some buf ->
  is_prime_primesdb w number = (lookup (Some buf) number, w).
Proof. intros H; unfold is_prime_primesdb; rewrite H; reflexivity. Qed.

Lemma getitem_in_range (buf : bytes) (a : Z) :
  0 <= a < len buf -> getitem buf a = Ret (byte_at buf a).
Proof.
  intros Ha; unfold getitem, byte_at.
  destruct (Z.ltb_spec a 0) as [|_]; [lia|].
  destruct (Z.ltb_spec a 0) as [|_]; [lia|].
  destruct (Z.leb_spec (len buf) a) as [|_]; [lia|]; simpl.
  destruct (nth_error buf (Z.to_nat a)) eqn:Hn; [reflexivity|].
  apply nth_error_None in Hn; unfold len in Ha; lia.
Qed.

(** What [lookup] does with a number that passed the fast path. *)
Lemma lookup_survivor (data : option bytes) (n : Z) :
  survives_fast_path n ->
  lookup data n =
  (address <- address_of (n / 10) ;;
   out_of_range <- (if address <? 0 then Ret true
                    else (k <- len_of data ;; Ret (address >=? k))) ;;
   if out_of_range then Ret (is_prime n)
   else
     bit_pos <- dict_get bit_positions (n mod 10) ;;
     let bit_pos := if (n / 10) mod 2 =? 0 then bit_pos + 4 else bit_pos in
     byte_value <- subscript data address ;;
     Ret (Z.land (Z.shiftr byte_value bit_pos) 1 =? 1)).
Proof.
  intros (H2 & N2 & N3 & N5 & N7 & M2 & M3 & M5 & Hd); unfold lookup.
  destruct (Z.ltb_spec n 2) as [|_]; [lia|].
  apply Z.eqb_neq in N2, N3, N5, N7, M2, M3, M5.
  rewrite N2, N3, N5, N7, M2, M3, M5; simpl orb; cbv iota.
  replace (in_list (n mod 10) [1; 3; 7; 9]) with true; [reflexivity|].
  symmetry; unfold in_list; apply existsb_exists.
  exists (n mod 10); split; [exact Hd | apply Z.eqb_refl].
Qed.

Lemma survivor_ge_11 (n : Z) : survives_fast_path n -> 11 <= n.
Proof.
  intros (H2 & N2 & N3 & N5 & N7 & M2 & M3 & M5 & _).
  pose proof (Z.div_mod n 2 ltac:(lia)).
  pose proof (Z.mod_pos_bound n 2 ltac:(lia)).
  pose proof (Z.div_mod n 3 ltac:(lia)).
  pose proof (Z.mod_pos_bound n 3 ltac:(lia)).
  pose proof (Z.div_mod n 5 ltac:(lia)).
  pose proof (Z.mod_pos_bound n 5 ltac:(lia)).
  lia.
Qed.

Lemma dict_get_bit_positions (d : Z) :
  In d [1; 3; 7; 9] -> dict_get bit_positions d = Ret (index_of d [1; 3; 7; 9]).
Proof. simpl; intros [<-|[<-|[<-|[<-|[]]]]]; reflexivity. Qed.

Lemma index_of_digit_bounds (d : Z) : 0 <= index_of d [1; 3; 7; 9] <= 4.
Proof. simpl; repeat (destruct (_ =? _); try lia). Qed.

(** The in-range case of the lookup, with the address and bit position of
    the format description. *)
Lemma lookup_in_range (buf : bytes) (n : Z) :
  survives_fast_path n ->
  len buf < 2 ^ 52 ->
  0 <= spec_address n < len buf ->
  lookup (Some buf) n =
  Ret (Z.testbit (byte_at buf (spec_address n)) (spec_bit_pos n)).
Proof.
  intros Hs Hlen Ha.
  pose proof (survivor_ge_11 n Hs) as H11.
  rewrite lookup_survivor by exact Hs.
  rewrite spec_address_eq in *.
  assert (1 <= n / 10) by (apply Z.div_le_lower_bound; lia).
  assert (n / 10 < 2 ^ 53 - 1).
  { change (2 ^ 53) with (2 * 2 ^ 52).
    pose proof (Z.div_mod (n / 10 + 1) 2 ltac:(lia)).
    pose proof (Z.mod_pos_bound (n / 10 + 1) 2 ltac:(lia)). lia. }
  rewrite address_of_exact by lia; cbn [bind len_of].
  destruct (Z.ltb_spec ((n / 10 + 1) / 2 - 1) 0) as [|_]; [lia|].
  destruct (Z.geb_spec ((n / 10 + 1) / 2 - 1) (len buf)) as [|_]; [lia|].
  cbn [bind].
  destruct Hs as (_ & _ & _ & _ & _ & _ & _ & _ & Hd).
  rewrite dict_get_bit_positions by exact Hd; cbn [bind subscript].
  rewrite getitem_in_range by lia; cbn [bind].
  pose proof (index_of_digit_bounds (n mod 10)).
  unfold spec_bit_pos.
  rewrite Zeven_mod.
  destruct (Z.eqb_spec ((n / 10) mod 2) 0) as [He|He];
    rewrite bit_test_testbit by lia.
  - reflexivity.
  - rewrite Z.add_0_r; reflexivity.
Qed.

Lemma is_prime_false_of_divisor (n d : Z) :
  1 < d < n -> n mod d = 0 -> is_prime n = false.
Proof.
  intros Hd Hmod.
  destruct (is_prime n) eqn:Hp; [|reflexivity].
  apply is_prime_correct in Hp as [_ Hp].
  exfalso; apply (Hp d Hd); apply Z.mod_divide; [lia | exact Hmod].
Qed.

Lemma last_digit_of_coprime_to_10 (n : Z) :
  n mod 2 <> 0 -> n mod 5 <> 0 -> In (n mod 10) [1; 3; 7; 9].
Proof.
  intros M2 M5.
  pose proof (Z.div_mod n 10 ltac:(lia)).
  pose proof (Z.mod_pos_bound n 10 ltac:(lia)).
  pose proof (Z.div_mod n 2 ltac:(lia)).
  pose proof (Z.mod_pos_bound n 2 ltac:(lia)).
  pose proof (Z.div_mod n 5 ltac:(lia)).
  pose proof (Z.mod_pos_bound n 5 ltac:(lia)).
  simpl.
  assert (n mod 10 = 1 \/ n mod 10 = 3 \/ n mod 10 = 7 \/ n mod 10 = 9) by lia.
  intuition auto.
Qed.

(** Every number either reaches the address computation or is settled by
    the fast path, and the fast path answers as the oracle does. *)
Lemma lookup_fast_path (n : Z) :
  survives_fast_path n \/ forall data, lookup data n = Ret (is_prime n).
Proof.
  unfold lookup.
  destruct (Z.ltb_spec n 2) as [Hlt|Hge].
  { right; intros data; unfold is_prime.
    destruct (Z.leb_spec n 1); [reflexivity | lia]. }
  destruct (Z.eqb_spec n 2) as [E|N2]; [subst n; right; reflexivity|].
  destruct (Z.eqb_spec n 3) as [E|N3]; [subst n; right; reflexivity|].
  destruct (Z.eqb_spec n 5) as [E|N5]; [subst n; right; reflexivity|].
  destruct (Z.eqb_spec n 7) as [E|N7]; [subst n; right; reflexivity|].
  cbn [orb].
  destruct (Z.eqb_spec (n mod 2) 0) as [M2|M2].
  { right; intros data; cbn [orb].
    rewrite (is_prime_false_of_divisor n 2); auto; lia. }
  destruct (Z.eqb_spec (n mod 3) 0) as [M3|M3].
  { right; intros data; cbn [orb].
    rewrite (is_prime_false_of_divisor n 3); auto; lia. }
  destruct (Z.eqb_spec (n mod 5) 0) as [M5|M5].
  { right; intros data; cbn [orb].
    pose proof (Z.div_mod n 5 ltac:(lia)).
    rewrite (is_prime_false_of_divisor n 5); auto; lia. }
  left; repeat split; auto.
  apply last_digit_of_coprime_to_10; assumption.
Qed.

(** C5: for a number that passed the fast path, a loaded buffer shorter
    than [2 ^ 52] bytes and an address inside it, the lookup returns the bit
    of the byte at [floor ((n div 10) / 2 + 0.5) - 1] whose position is the
    index of the last digit in (1, 3, 7, 9), plus 4 exactly when the decade
    is even; the address the code computes is that one.  For 31 the address
    is 1 and the bit position 0, decade 3 being odd. *)
Theorem C5_lookup_address_and_bit :
  forall (w : world) (buf : bytes) (n : Z),
    primesdb_data w = Some buf ->
    survives_fast_path n ->
    len buf < 2 ^ 52 ->
    0 <= spec_address n < len buf ->
    is_prime_primesdb w n =
      (Ret (Z.testbit (byte_at buf (spec_address n)) (spec_bit_pos n)), w) /\
    address_of (n / 10) = Ret (spec_address n) /\
    (spec_bit_pos n =
       index_of (n mod 10) [1; 3; 7; 9] + (if Z.even (n / 10) then 4 else 0)) /\
    (address_of (31 / 10) = Ret 1 /\ spec_address 31 = 1 /\
     spec_bit_pos 31 = 0 /\ Z.even (31 / 10) = false).
Proof.
  intros w buf n Hw Hs Hlen Ha; repeat split.
  - rewrite (is_prime_primesdb_loaded w buf) by exact Hw.
    rewrite lookup_in_range by assumption; reflexivity.
  - pose proof (survivor_ge_11 n Hs) as H11.
    rewrite spec_address_eq in *.
    assert (1 <= n / 10) by (apply Z.div_le_lower_bound; lia).
    apply address_of_exact.
    change (2 ^ 53) with (2 * 2 ^ 52).
    pose proof (Z.div_mod (n / 10 + 1) 2 ltac:(lia)).
    pose proof (Z.mod_pos_bound (n / 10 + 1) 2 ltac:(lia)). lia.
Qed.

Lemma C5_lookup_address_and_bit_witness :
  is_prime_primesdb (loaded sample_index) 31 = (Ret true, loaded sample_index).
Proof.
  refine (proj1 (C5_lookup_address_and_bit (loaded sample_index) sample_index 31
                   eq_refl _ _ _)).
  - unfold survives_fast_path; repeat split;
      try (intros H; vm_compute in H; discriminate).
    left; reflexivity.
  - reflexivity.
  - split; [discriminate | reflexivity].
Defined.

(** C6: with a loaded buffer, whenever the address derived from [n] is
    negative or not below the buffer's length, the combined check returns
    exactly [is_prime n], and leaves the world alone. *)
Theorem C6_out_of_range_falls_back :
  forall (w : world) (buf : bytes) (n a : Z),
    primesdb_data w = Some buf ->
    address_of (n / 10) = Ret a ->
    a < 0 \/ len buf <= a ->
    is_prime_primesdb w n = (Ret (is_prime n), w).
Proof.
  intros w buf n a Hw Haddr Hout.
  rewrite (is_prime_primesdb_loaded w buf) by exact Hw.
  f_equal.
  destruct (lookup_fast_path n) as [Hs|Hfast]; [|apply Hfast].
  rewrite lookup_survivor by exact Hs.
  rewrite Haddr; cbn [bind len_of].
  destruct (Z.ltb_spec a 0) as [|Hge]; [reflexivity|].
  destruct (Z.geb_spec a (len buf)) as [|Hlt]; [reflexivity | lia].
Qed.

Lemma C6_out_of_range_falls_back_witness :
  is_prime_primesdb (loaded sample_index) 131 = (Ret true, loaded sample_index).
Proof.
  refine (C6_out_of_range_falls_back (loaded sample_index) sample_index 131 6
            eq_refl eq_refl _).
  right; discriminate.
Defined.

(** ** The scanner *)

Lemma lookup_returns (buf : bytes) (n : Z) :
  0 <= n / 10 < 2 ^ 53 -> exists b, lookup (Some buf) n = Ret b.
Proof.
  intros Hd.
  destruct (lookup_fast_path n) as [Hs|Hfast]; [|eauto].
  rewrite lookup_survivor by exact Hs.
  rewrite address_of_exact by exact Hd; cbn [bind len_of].
  destruct (Z.ltb_spec ((n / 10 + 1) / 2 - 1) 0) as [|Hge]; [cbn [bind]; eauto|].
  destruct (Z.geb_spec ((n / 10 + 1) / 2 - 1) (len buf)) as [|Hlt];
    cbn [bind]; [eauto|].
  destruct Hs as (_ & _ & _ & _ & _ & _ & _ & _ & Hdig).
  rewrite dict_get_bit_positions by exact Hdig; cbn [bind subscript].
  rewrite getitem_in_range by lia; cbn [bind]; eauto.
Qed.

(** Inside the scanned range the combined check returns a boolean. *)
Lemma is_prime_primesdb_returns (w : world) (n : Z) :
  0 <= n < 10 ^ 10 ->
  exists b w', is_prime_primesdb w n = (Ret b, w') /\ data_kept w w'.
Proof.
  intros Hn.
  assert (0 <= n / 10 < 2 ^ 53) as Hd.
  { split; [apply Z.div_pos; lia|].
    apply Z.div_lt_upper_bound; [lia|].
    assert (10 ^ 10 < 10 * 2 ^ 53) by reflexivity. lia. }
  unfold is_prime_primesdb, data_kept.
  destruct (primesdb_data w) as [buf|] eqn:Hw.
  - destruct (lookup_returns buf n Hd) as [b Hb]; rewrite Hb; eauto.
  - unfold download_primesdb.
    destruct (pending w) as [|[c|c|] rest]; cbn [negb];
      try (eexists; eexists; split; [reflexivity | discriminate]).
    cbn [primesdb_data].
    destruct (lookup_returns c n Hd) as [b Hb]; rewrite Hb.
    eexists; eexists; split; [reflexivity | discriminate].
Qed.

Lemma scan_guard_dec (count : Z) (s : scan_state) :
  ((len (result s) <? count) && (current s >? 1) && (current s <? 10 ^ 10) = true)
  <-> scan_guard count s.
Proof.
  unfold scan_guard.
  rewrite !andb_true_iff, Z.ltb_lt, Z.gtb_ltb, !Z.ltb_lt; tauto.
Qed.

(** One iteration: the guard held, the cursor moved by [step], and the
    result grew by at most the cursor. *)
Lemma scan_body_continue (count step : Z) (s s' : scan_state) :
  scan_body count step s = inl s' ->
  scan_guard count s /\
  current s' = current s + step /\
  (result s' = result s \/ result s' = result s ++ [current s]) /\
  data_kept (scan_world s) (scan_world s').
Proof.
  unfold scan_body.
  destruct (_ && _) eqn:Hg; [|discriminate].
  apply scan_guard_dec in Hg.
  destruct (is_prime_primesdb_returns (scan_world s) (current s))
    as (b & w' & Hp & Hk); [unfold scan_guard in Hg; lia|].
  rewrite Hp.
  destruct b; intros [= <-]; cbn; auto.
Qed.

(** Leaving the loop: the guard failed and the list collected so far is
    returned; nothing is raised. *)
Lemma scan_body_exit (count step : Z) (s : scan_state) (r : outcome (list Z) * world) :
  scan_body count step s = inr r ->
  ~ scan_guard count s /\ r = (Ret (result s), scan_world s).
Proof.
  unfold scan_body.
  destruct (_ && _) eqn:Hg.
  - apply scan_guard_dec in Hg.
    destruct (is_prime_primesdb_returns (scan_world s) (current s))
      as (b & w' & Hp & _); [unfold scan_guard in Hg; lia|].
    rewrite Hp; destruct b; discriminate.
  - intros [= <-]; split; [|reflexivity].
    rewrite <- scan_guard_dec, Hg; discriminate.
Qed.

Lemma scan_body_stop (count step : Z) (s : scan_state) :
  ~ scan_guard count s ->
  scan_body count step s = inr (Ret (result s), scan_world s).
Proof.
  intros Hg; unfold scan_body.
  destruct (_ && _) eqn:Hb; [|reflexivity].
  apply scan_guard_dec in Hb; contradiction.
Qed.

Lemma scan_variant_decreases (count step : Z) (s s' : scan_state) :
  step = 1 \/ step = -1 ->
  scan_body count step s = inl s' ->
  (scan_variant step s' < scan_variant step s)%nat.
Proof.
  intros Hstep Hb.
  apply scan_body_continue in Hb as ((_ & Hc) & Hcur & _).
  unfold scan_variant; rewrite Hcur.
  destruct (Z.ltb_spec 1 (current s)) as [_|]; [|lia].
  destruct (Z.ltb_spec (current s) (10 ^ 10)) as [_|]; [|lia].
  cbn [andb].
  destruct Hstep as [-> | ->].
  - change (1 =? 1) with true; cbv iota.
    destruct (Z.ltb_spec 1 (current s + 1)), (Z.ltb_spec (current s + 1) (10 ^ 10));
      cbn [andb]; lia.
  - change (-1 =? 1) with false; cbv iota.
    destruct (Z.ltb_spec 1 (current s + -1)), (Z.ltb_spec (current s + -1) (10 ^ 10));
      cbn [andb]; lia.
Qed.

Lemma scan_variant_bound (step : Z) (s : scan_state) :
  (scan_variant step s < 2 ^ scan_fuel)%nat.
Proof.
  unfold scan_variant.
  assert (Z.of_nat (2 ^ scan_fuel) = 2 ^ 34) as Hpow.
  { unfold scan_fuel; rewrite Nat2Z.inj_pow; reflexivity. }
  assert (10 ^ 10 < 2 ^ 34) as Hlt by reflexivity.
  destruct (Z.ltb_spec 1 (current s)) as [H1|]; cbn [andb]; [|lia].
  destruct (Z.ltb_spec (current s) (10 ^ 10)) as [H2|]; [|lia].
  destruct (step =? 1); lia.
Qed.

Lemma scan_step_cases (direction : string) :
  scan_step direction = 1 \/ scan_step direction = -1.
Proof. unfold scan_step; destruct (String.eqb _ _); auto. Qed.

(** The loop of the scanner leaves, with the list collected so far. *)
Lemma scan_loop_terminates (count step : Z) (s : scan_state) :
  step = 1 \/ step = -1 ->
  exists r, iter_loop (scan_body count step) scan_fuel s = inr r.
Proof.
  intros Hstep.
  apply iter_loop_measure with (mu := scan_variant step).
  - intros s1 s2; apply scan_variant_decreases; exact Hstep.
  - apply scan_variant_bound.
Qed.

(** What [scan_from] returns is the list held by a state in which the guard
    fails and every invariant of the iterations holds. *)
Lemma scan_from_exit (I : scan_state -> Prop) (w : world) (number count : Z)
      (direction : string) :
  I (ScanState [] (scan_start number direction) w) ->
  (forall s s', I s -> scan_body count (scan_step direction) s = inl s' -> I s') ->
  exists s', I s' /\ ~ scan_guard count s' /\
             scan_from w number count direction = (Ret (result s'), scan_world s').
Proof.
  intros Hinit Hpres; unfold scan_from.
  destruct (scan_loop_terminates count (scan_step direction)
              (ScanState [] (scan_start number direction) w)
              (scan_step_cases direction)) as [r Hr].
  rewrite Hr.
  destruct (iter_loop_invariant _ I _ _ _ Hpres Hinit Hr) as (s' & Hs' & Hexit).
  apply scan_body_exit in Hexit as [Hg ->].
  exists s'; auto.
Qed.

(** [find_primes_near] either gives up with the empty list, the buffer
    being neither loaded nor loadable, or scans. *)
Lemma find_primes_near_cases (w : world) (number count : Z) (direction : string) :
  (primesdb_data w = None /\ fst (download_primesdb w) = false /\
   find_primes_near w number count direction = (Ret [], snd (download_primesdb w)))
  \/ exists w1, find_primes_near w number count direction
                = scan_from w1 number count direction.
Proof.
  unfold find_primes_near.
  destruct (primesdb_data w) eqn:Hw; [right; eauto|].
  destruct (download_primesdb w) as [[|] w'] eqn:Hd; cbn [negb fst snd].
  - right; eauto.
  - left; auto.
Qed.

Lemma above_preserved (number count : Z) (s s' : scan_state) :
  above number s -> scan_body count 1 s = inl s' -> above number s'.
Proof.
  intros [Hc Hr] Hb.
  apply scan_body_continue in Hb as (_ & Hcur & Hres & _).
  split; [lia|].
  destruct Hres as [-> | ->]; [exact Hr|].
  apply Forall_app; split; [exact Hr | repeat constructor; exact Hc].
Qed.

Lemma below_preserved (number count : Z) (s s' : scan_state) :
  below number s -> scan_body count (-1) s = inl s' -> below number s'.
Proof.
  intros [Hc Hr] Hb.
  apply scan_body_continue in Hb as (_ & Hcur & Hres & _).
  split; [lia|].
  destruct Hres as [-> | ->]; [exact Hr|].
  apply Forall_app; split; [exact Hr | repeat constructor; exact Hc].
Qed.

(** The upward scan returns a list, and all of it lies above the start. *)
Lemma find_primes_near_larger (w : world) (number count : Z) :
  exists l w', find_primes_near w number count "larger" = (Ret l, w') /\
               Forall (fun p => number < p) l.
Proof.
  destruct (find_primes_near_cases w number count "larger")
    as [(_ & _ & ->)|[w1 ->]]; [eauto|].
  destruct (scan_from_exit (above number) w1 number count "larger")
    as (s' & [_ Hr] & _ & ->).
  - split; [cbn; lia | constructor].
  - intros s s'; apply above_preserved.
  - eauto.
Qed.

(** The downward scan returns a list, and all of it lies below the start. *)
Lemma find_primes_near_smaller (w : world) (number count : Z) :
  exists l w', find_primes_near w number count "smaller" = (Ret l, w') /\
               Forall (fun p => p < number) l.
Proof.
  destruct (find_primes_near_cases w number count "smaller")
    as [(_ & _ & ->)|[w1 ->]]; [eauto|].
  destruct (scan_from_exit (below number) w1 number count "smaller")
    as (s' & [_ Hr] & _ & ->).
  - split; [cbn; lia | constructor].
  - intros s s'; apply below_preserved.
  - eauto.
Qed.

Lemma Forall_lt_not_In (P : Z -> Prop) (x : Z) (l : list Z) :
  Forall P l -> ~ P x -> ~ In x l.
Proof. intros Hl Hx Hin; apply Hx; eapply Forall_forall; eauto. Qed.

(** C4: for every start and count, the upward scan returns only numbers
    strictly greater than the start and the downward scan only numbers
    strictly less; the start itself is in neither list, prime or not. *)
Theorem C4_scans_exclude_start :
  forall (w : world) (number count : Z),
    (exists l w', find_primes_near w number count "larger" = (Ret l, w') /\
                  Forall (fun p => number < p) l /\ ~ In number l) /\
    (exists l w', find_primes_near w number count "smaller" = (Ret l, w') /\
                  Forall (fun p => p < number) l /\ ~ In number l).
Proof.
  intros w number count; split.
  - destruct (find_primes_near_larger w number count) as (l & w' & Heq & Hl).
    exists l, w'; repeat split; auto.
    apply (Forall_lt_not_In _ _ _ Hl); lia.
  - destruct (find_primes_near_smaller w number count) as (l & w' & Heq & Hl).
    exists l, w'; repeat split; auto.
    apply (Forall_lt_not_In _ _ _ Hl); lia.
Qed.

(** C8: for every start, count and direction the loop of the scanner
    leaves after finitely many iterations, and [find_primes_near] returns
    what it collected; an iteration moves the cursor by the fixed step, +1
    or -1, and happens only while fewer than [count] primes are collected
    and the cursor is above 1 and below [10 ^ 10]; otherwise the loop
    leaves at once. *)
Theorem C8_scanner_terminates :
  forall (w : world) (number count : Z) (direction : string),
    let step := scan_step direction in
    let start := ScanState [] (scan_start number direction) w in
    (exists s',
        terminates_with (scan_body count step) start (Ret (result s'), scan_world s') /\
        scan_from w number count direction = (Ret (result s'), scan_world s')) /\
    (step = 1 \/ step = -1) /\
    (forall s s', scan_body count step s = inl s' ->
                  current s' = current s + step /\
                  len (result s) < count /\ 1 < current s < 10 ^ 10) /\
    (forall s, count <= len (result s) \/ current s <= 1 \/ 10 ^ 10 <= current s ->
               scan_body count step s = inr (Ret (result s), scan_world s)).
Proof.
  intros w number count direction step start; repeat split.
  - destruct (scan_loop_terminates count step start (scan_step_cases direction))
      as [r Hr].
    destruct (iter_loop_invariant _ (fun _ => True) _ _ _ (fun _ _ _ _ => I) I Hr)
      as (s' & _ & Hexit).
    apply scan_body_exit in Hexit as [_ ->].
    destruct (iter_loop_terminates _ _ _ _ Hr) as [n Hn].
    exists s'; split; [exists n; exact Hn|].
    unfold scan_from; fold step start; rewrite Hr; reflexivity.
  - apply scan_step_cases.
  - apply scan_body_continue in H; tauto.
  - apply scan_body_continue in H as (Hg & _); apply Hg.
  - apply scan_body_continue in H as (Hg & _); apply Hg.
  - apply scan_body_continue in H as (Hg & _); apply Hg.
  - intros s Hs; apply scan_body_stop; unfold scan_guard; lia.
Qed.

(** ** Directions other than the two documented ones *)

(** One iteration with the buffer loaded, in terms of the lookup. *)
Lemma scan_body_loaded (count step : Z) (s : scan_state) (buf : bytes) (b : bool) :
  primesdb_data (scan_world s) = Some buf ->
  scan_guard count s ->
  lookup (Some buf) (current s) = Ret b ->
  scan_body count step s =
  inl (ScanState (if b then result s ++ [current s] else result s)
                 (current s + step) (scan_world s)).
Proof.
  intros Hw Hg Hl; unfold scan_body.
  apply scan_guard_dec in Hg; rewrite Hg.
  rewrite (is_prime_primesdb_loaded _ buf) by exact Hw.
  rewrite Hl; destruct b; reflexivity.
Qed.

Lemma scan_other_direction (direction : string) (number : Z) :
  direction <> "smaller"%string -> direction <> "larger"%string ->
  scan_start number direction = number + 1 /\ scan_step direction = -1.
Proof.
  intros Hs Hl; unfold scan_start, scan_step.
  apply String.eqb_neq in Hs, Hl; rewrite Hs, Hl; auto.
Qed.

Lemma passing_preserved (w : world) (buf : bytes) (number count : Z)
      (s s' : scan_state) :
  primesdb_data w = Some buf ->
  2 <= count \/ (1 <= count /\ lookup (Some buf) (number + 1) = Ret false) ->
  lookup (Some buf) number = Ret true ->
  passing w number count s ->
  scan_body count (-1) s = inl s' ->
  passing w number count s'.
Proof.
  intros Hw Hcount Hnum [Hsw Hcases] Hb.
  pose proof (scan_body_continue _ _ _ _ Hb) as (Hg & Hcur & Hres & Hkept).
  assert (scan_world s' = w) as Hsw'.
  { rewrite (Hkept buf); [exact Hsw | rewrite Hsw; exact Hw]. }
  split; [exact Hsw'|].
  destruct Hcases as [[Hc Hr]|[(Hc & Hlen & Hr)|[Hc Hin]]].
  - right; left; split; [lia|].
    destruct Hcount as [H2|[H1 Hnext]].
    + split; [|auto].
      destruct Hres as [-> | ->]; rewrite Hr; cbn; lia.
    + rewrite (scan_body_loaded count (-1) s buf false) in Hb;
        [| rewrite Hsw; exact Hw | exact Hg | rewrite Hc; exact Hnext].
      injection Hb as <-; cbn; rewrite Hr; split; [cbn; lia | auto].
  - right; right; split; [lia|].
    rewrite (scan_body_loaded count (-1) s buf true) in Hb;
      [| rewrite Hsw; exact Hw | exact Hg | rewrite Hc; exact Hnum].
    injection Hb as <-; cbn.
    apply in_or_app; right; left; exact Hc.
  - right; right; split; [lia|].
    destruct Hres as [-> | ->]; [exact Hin | apply in_or_app; auto].
Qed.

Lemma lookup_true_ge_2 (data : option bytes) (n : Z) :
  lookup data n = Ret true -> 2 <= n.
Proof.
  unfold lookup; destruct (Z.ltb_spec n 2); [discriminate | lia].
Qed.

(** C9, amended: for a direction that is neither 'smaller' nor 'larger'
    the cursor starts at [number + 1] and the step is -1; with the buffer
    loaded, [number + 1 < 10 ^ 10], and either [count >= 2] or [count >= 1]
    and [number + 1] not reported prime, the returned list contains
    [number] whenever the lookup reports [number] prime. *)
Theorem C9_other_direction_includes_start :
  forall (w : world) (buf : bytes) (direction : string) (number count : Z),
    direction <> "smaller"%string -> direction <> "larger"%string ->
    primesdb_data w = Some buf ->
    number + 1 < 10 ^ 10 ->
    2 <= count \/ (1 <= count /\ lookup (Some buf) (number + 1) = Ret false) ->
    lookup (Some buf) number = Ret true ->
    scan_start number direction = number + 1 /\
    scan_step direction = -1 /\
    exists l, find_primes_near w number count direction = (Ret l, w) /\
              In number l.
Proof.
  intros w buf direction number count Hs Hl Hw Hbound Hcount Hnum.
  destruct (scan_other_direction direction number Hs Hl) as [Hstart Hstep].
  repeat split; auto.
  pose proof (lookup_true_ge_2 _ _ Hnum) as H2.
  unfold find_primes_near; rewrite Hw.
  destruct (scan_from_exit (passing w number count) w number count direction)
    as (s' & [Hsw Hcases] & Hg & ->).
  - split; [reflexivity|]. left; rewrite Hstart; auto.
  - rewrite Hstep; intros s s'; eapply passing_preserved; eauto.
  - exists (result s'); rewrite Hsw; split; [reflexivity|].
    unfold scan_guard in Hg.
    destruct Hcases as [[Hc Hr]|[(Hc & Hlen & Hr)|[Hc Hin]]]; [| |exact Hin].
    + exfalso; apply Hg; rewrite Hr, Hc; cbn; lia.
    + exfalso; apply Hg; rewrite Hc; split; [|lia].
      destruct Hr as [Hr|Hr]; [lia|].
      rewrite Hr; cbn; lia.
Qed.

Lemma C9_other_direction_includes_start_witness :
  exists l, find_primes_near (loaded sample_index) 13 2 "sideways"
            = (Ret l, loaded sample_index) /\ In 13 l.
Proof.
  refine (proj2 (proj2 (C9_other_direction_includes_start
                          (loaded sample_index) sample_index "sideways" 13 2
                          _ _ eq_refl _ _ eq_refl))).
  - discriminate.
  - discriminate.
  - reflexivity.
  - left; discriminate.
Defined.

(** C9 as stated fails: with count 1 the scan from 2 in another direction
    returns only 3, although 2 is prime. *)
Lemma C9_counterexample :
  is_prime 2 = true /\
  "sideways"%string <> "smaller"%string /\ "sideways"%string <> "larger"%string /\
  find_primes_near (loaded sample_index) 2 1 "sideways"
  = (Ret [3], loaded sample_index) /\
  ~ In 2 [3].
Proof.
  repeat split; try discriminate.
  intros [H|[]]; discriminate.
Qed.

(** ** The index neither loaded nor loadable *)

(** Without a buffer and with a loader that fails, the combined check is
    the oracle. *)
Lemma is_prime_primesdb_unavailable (w : world) (number : Z) :
  primesdb_data w = None -> fst (download_primesdb w) = false ->
  is_prime_primesdb w number = (Ret (is_prime number), snd (download_primesdb w)).
Proof.
  intros Hw Hd; unfold is_prime_primesdb; rewrite Hw.
  destruct (download_primesdb w) as [ok w']; cbn in *; subst ok; reflexivity.
Qed.

(** In the same situation the scanner returns the empty list at once. *)
Lemma find_primes_near_unavailable (w : world) (number count : Z) (direction : string) :
  primesdb_data w = None -> fst (download_primesdb w) = false ->
  find_primes_near w number count direction = (Ret [], snd (download_primesdb w)).
Proof.
  intros Hw Hd; unfold find_primes_near; rewrite Hw.
  destruct (download_primesdb w) as [ok w']; cbn in *; subst ok; reflexivity.
Qed.

(** C2 fails on the scanner: with no buffer and a failing loader the
    combined check does fall back to the oracle, but [find_primes_near]
    returns the empty list for every start, count and direction, where the
    oracle-based scan from 100 finds 101 and 103. *)
Theorem C2_unavailable_index_gives_empty_scan :
  forall (number count : Z) (direction : string),
    is_prime_primesdb (World None [NotLoaded]) number
    = (Ret (is_prime number), World None []) /\
    find_primes_near (World None [NotLoaded]) number count direction
    = (Ret [], World None []) /\
    find_primes_near (World None [NotLoaded]) 100 2 "larger" = (Ret [], World None []) /\
    oracle_scan 100 2 "larger" = [101; 103].
Proof.
  intros number count direction.
  split; [apply (is_prime_primesdb_unavailable (World None [NotLoaded])); reflexivity|].
  split; [apply (find_primes_near_unavailable (World None [NotLoaded])); reflexivity|].
  split; reflexivity.
Qed.

(** ** Base 36 *)

Lemma char_at_chars (k : Z) :
  0 <= k < 36 ->
  exists c, char_at chars k = Ret c /\ char_value c = Ret k /\
            In c (list_ascii_of_string chars).
Proof.
  intros Hk.
  rewrite <- (Z2Nat.id k) by lia.
  assert (Z.to_nat k < 36)%nat as Hn by lia.
  revert Hn; generalize (Z.to_nat k); clear k Hk; intros n Hn.
  do 36 (destruct n as [|n];
         [eexists; split; [reflexivity | split; [reflexivity | cbn; tauto]]|]).
  lia.
Qed.

Lemma to_base36_body_step (n : Z) (s s' : Z * string) :
  to_base36_inv n s -> to_base36_body s = inl s' ->
  to_base36_inv n s' /\ (Z.to_nat (fst s') < Z.to_nat (fst s))%nat.
Proof.
  destruct s as [number result]; intros (Hpos & Hdec & Hchars).
  unfold to_base36_body; cbn [fst snd] in *.
  destruct (Z.gtb_spec number 0) as [Hgt|]; [|discriminate].
  pose proof (Z.mod_pos_bound number 36 ltac:(lia)) as Hmod.
  destruct (char_at_chars (number mod 36) Hmod) as (c & -> & Hval & Hin).
  intros [= <-]; unfold to_base36_inv;
    cbn [fst snd to_base10_from list_ascii_of_string].
  pose proof (Z.div_mod number 36 ltac:(lia)) as Hdm.
  assert (0 <= number / 36) by (apply Z.div_pos; lia).
  repeat split.
  - assumption.
  - rewrite Hval; cbn [bind].
    replace (number / 36 * 36 + number mod 36) with number by lia.
    exact Hdec.
  - intros c' [<-|Hc']; auto.
  - lia.
Qed.

Lemma to_base36_body_exit (s : Z * string) (r : outcome string) :
  to_base36_body s = inr r -> r = Ret (snd s) /\ fst s <= 0.
Proof.
  destruct s as [number result].
  unfold to_base36_body; cbn [fst snd] in *.
  destruct (Z.gtb_spec number 0) as [Hgt|Hle].
  - pose proof (Z.mod_pos_bound number 36 ltac:(lia)) as Hmod.
    destruct (char_at_chars (number mod 36) Hmod) as (c & -> & _); discriminate.
  - intros [= <-]; split; [reflexivity | lia].
Qed.

Lemma to_base36_loop_terminates (n : Z) :
  exists r, iter_loop to_base36_body (to_base36_fuel n) (n, EmptyString) = inr r.
Proof.
  apply iter_loop_measure with (mu := fun s => Z.to_nat (fst s)).
  - intros [number result] s'; cbn.
    destruct (Z.gtb_spec number 0) as [Hgt|]; [|discriminate].
    destruct (char_at chars (number mod 36)); [|discriminate].
    intros [= <-]; cbn.
    pose proof (Z.div_lt number 36 ltac:(lia) ltac:(lia)).
    assert (0 <= number / 36) by (apply Z.div_pos; lia).
    lia.
  - cbn [fst]; unfold to_base36_fuel.
    destruct (Z_lt_le_dec 0 n) as [Hpos|Hneg]; [apply pow2_log2_gt; exact Hpos|].
    replace (Z.to_nat n) with 0%nat by lia.
    apply Nat.neq_0_lt_0, Nat.pow_nonzero; discriminate.
Qed.

(** [to_base36] raises nothing, whatever the integer. *)
Lemma to_base36_returns (n : Z) : exists s, to_base36 n = Ret s.
Proof.
  unfold to_base36; destruct (n =? 0); [eauto|].
  destruct (to_base36_loop_terminates n) as [r Hr]; rewrite Hr.
  destruct (iter_loop_invariant _ (fun _ => True) _ _ _ (fun _ _ _ _ => I) I Hr)
    as (s' & _ & Hexit).
  apply to_base36_body_exit in Hexit as [-> _]; eauto.
Qed.

(** [to_base36] returns a string over the 36 digits that [to_base10]
    decodes to the number. *)
Lemma to_base36_decodes (n : Z) :
  0 <= n ->
  exists s, to_base36 n = Ret s /\ to_base10 s = Ret n /\
            forall c, In c (list_ascii_of_string s) ->
                      In c (list_ascii_of_string chars).
Proof.
  intros Hn; unfold to_base36.
  destruct (Z.eqb_spec n 0) as [->|Hnz].
  { exists "0"%string; repeat split; cbn; tauto. }
  assert (to_base36_inv n (n, EmptyString)) as Hinit.
  { repeat split; cbn; [lia | tauto]. }
  destruct (to_base36_loop_terminates n) as [r Hr].
  rewrite Hr.
  destruct (iter_loop_invariant _ (to_base36_inv n) _ _ _
              (fun s s' Hs Hb => proj1 (to_base36_body_step n s s' Hs Hb))
              Hinit Hr) as (s' & Hs' & Hexit).
  destruct (to_base36_body_exit s' r Hexit) as [-> Hzero].
  destruct Hs' as (Hpos & Hdec & Hchars).
  replace (fst s') with 0 in Hdec by lia.
  exists (snd s'); auto.
Qed.

(** C10: for every non-negative integer [n], [to_base36 n] returns a string
    over the digits 0-9 and A-Z which [to_base10] decodes to [n]. *)
Theorem C10_base36_round_trip :
  forall n : Z,
    0 <= n ->
    (s <- to_base36 n ;; to_base10 s) = Ret n /\
    exists s, to_base36 n = Ret s /\
              forall c, In c (list_ascii_of_string s) ->
                        In c (list_ascii_of_string chars).
Proof.
  intros n Hn.
  destruct (to_base36_decodes n Hn) as (s & Henc & Hdec & Hchars).
  split; [rewrite Henc; exact Hdec | eauto].
Qed.

Lemma C10_base36_round_trip_witness :
  (s <- to_base36 46655 ;; to_base10 s) = Ret 46655.
Proof.
  refine (proj1 (C10_base36_round_trip 46655 _)).
  discriminate.
Defined.

(** ** Ordered pairs of a list *)

Section OrderedPairs.
Context {A : Type}.

Lemma pairs_impl (R R' : A -> A -> Prop) (l : list A) :
  (forall a b, In a l -> In b l -> R a b -> R' a b) ->
  ForallOrdPairs R l -> ForallOrdPairs R' l.
Proof.
  intros Himp H; induction H as [|a l Ha Hl IH]; constructor.
  - apply Forall_forall; intros b Hb.
    apply Himp; [left; reflexivity | right; exact Hb |].
    eapply Forall_forall in Ha; eauto.
  - apply IH; intros x y Hx Hy; apply Himp; right; assumption.
Qed.

Lemma pairs_app (R : A -> A -> Prop) (l1 l2 : list A) :
  ForallOrdPairs R l1 -> ForallOrdPairs R l2 ->
  (forall a b, In a l1 -> In b l2 -> R a b) ->
  ForallOrdPairs R (l1 ++ l2).
Proof.
  intros H1 H2 Hcross; induction H1 as [|a l Ha Hl IH]; [exact H2|].
  cbn; constructor.
  - apply Forall_app; split; [exact Ha|].
    apply Forall_forall; intros b Hb; apply Hcross; [left; reflexivity | exact Hb].
  - apply IH; intros x y Hx Hy; apply Hcross; [right; exact Hx | exact Hy].
Qed.

Lemma firstn_In (n : nat) (l : list A) (x : A) : In x (firstn n l) -> In x l.
Proof.
  revert n; induction l as [|a l IH]; intros [|n]; cbn; try tauto.
  intros [->|H]; [left; reflexivity | right; eapply IH; exact H].
Qed.

Lemma pairs_firstn (R : A -> A -> Prop) (n : nat) (l : list A) :
  ForallOrdPairs R l -> ForallOrdPairs R (firstn n l).
Proof.
  intros H; revert n; induction H as [|a l Ha Hl IH]; intros [|n]; cbn;
    try constructor.
  - apply Forall_forall; intros b Hb.
    eapply Forall_forall in Ha; [exact Ha|].
    eapply firstn_In; exact Hb.
  - apply IH.
Qed.

Lemma pairs_of_all (R : A -> A -> Prop) (l : list A) :
  (forall a b, In a l -> In b l -> R a b) -> ForallOrdPairs R l.
Proof.
  induction l as [|a l IH]; intros H; constructor.
  - apply Forall_forall; intros b Hb; apply H; [left; reflexivity | right; exact Hb].
  - apply IH; intros x y Hx Hy; apply H; right; assumption.
Qed.

(** Of two positions in the list, the earlier one is related to the
    later one. *)
Lemma pairs_nth (R : A -> A -> Prop) (l : list A) (i j : nat) (a b : A) :
  ForallOrdPairs R l -> (i < j)%nat ->
  nth_error l i = Some a -> nth_error l j = Some b -> R a b.
Proof.
  intros H; revert i j; induction H as [|x l Hx Hl IH]; intros i j Hij Hi Hj.
  - destruct i; discriminate.
  - destruct j as [|j]; [lia|].
    destruct i as [|i]; cbn in Hi, Hj.
    + injection Hi as <-.
      eapply Forall_forall in Hx; [exact Hx|].
      eapply nth_error_In; exact Hj.
    + apply (IH i j); [lia | assumption | assumption].
Qed.

Lemma pairs_sorted (R : A -> A -> Prop) (l : list A) :
  ForallOrdPairs R l -> StronglySorted R l.
Proof. induction 1; constructor; assumption. Qed.
End OrderedPairs.

Lemma pairs_map {A B : Type} (f : A -> B) (R : B -> B -> Prop) (l : list A) :
  ForallOrdPairs R (map f l) <-> ForallOrdPairs (fun a b => R (f a) (f b)) l.
Proof.
  induction l as [|a l IH]; cbn.
  - split; constructor.
  - split; intros H; inversion H; subst; constructor;
      try (apply IH; assumption).
    + apply Forall_map; assumption.
    + apply Forall_map; assumption.
Qed.

(** ** The sort is a stable sort *)

Section SortByFacts.
Context {A : Type}.
Variable key : A -> Z.

Lemma insert_by_In (x y : A) (l : list A) :
  In y (insert_by key x l) <-> y = x \/ In y l.
Proof.
  induction l as [|z l IH]; cbn; [intuition auto|].
  destruct (key x <=? key z); cbn; [intuition auto|].
  rewrite IH; intuition auto.
Qed.

Lemma sort_by_In (y : A) (l : list A) : In y (sort_by key l) <-> In y l.
Proof.
  induction l as [|x l IH]; cbn; [tauto|].
  rewrite insert_by_In, IH; intuition auto.
Qed.

Lemma insert_by_perm (x : A) (l : list A) : Permutation (x :: l) (insert_by key x l).
Proof.
  induction l as [|z l IH]; cbn; [reflexivity|].
  destruct (key x <=? key z); [reflexivity|].
  etransitivity; [apply perm_swap | apply perm_skip, IH].
Qed.

Lemma sort_by_perm (l : list A) : Permutation l (sort_by key l).
Proof.
  induction l as [|x l IH]; cbn; [constructor|].
  etransitivity; [apply perm_skip, IH | apply insert_by_perm].
Qed.

Lemma tie_ordered_le (P : A -> A -> Prop) (a b : A) :
  tie_ordered key P a b -> key a <= key b.
Proof. intros [H|[H _]]; lia. Qed.

Lemma insert_by_pairs (P : A -> A -> Prop) (x : A) (l : list A) :
  ForallOrdPairs (tie_ordered key P) l -> Forall (P x) l ->
  ForallOrdPairs (tie_ordered key P) (insert_by key x l).
Proof.
  intros Hl; induction Hl as [|z l Hz Hl IH]; intros Hx; cbn.
  - repeat constructor.
  - inversion Hx as [|? ? Hxz Hxl]; subst.
    destruct (Z.leb_spec (key x) (key z)) as [Hle|Hgt].
    + constructor; [|constructor; assumption].
      constructor.
      * destruct (Z.eq_dec (key x) (key z)); [right; auto | left; lia].
      * apply Forall_forall; intros b Hb.
        eapply Forall_forall in Hz; [|exact Hb].
        eapply Forall_forall in Hxl; [|exact Hb].
        apply tie_ordered_le in Hz.
        destruct (Z.eq_dec (key x) (key b)); [right; auto | left; lia].
    + constructor; [|apply IH; exact Hxl].
      apply Forall_forall; intros b Hb.
      apply insert_by_In in Hb as [->|Hb]; [left; lia|].
      rewrite Forall_forall in Hz; apply Hz; exact Hb.
Qed.

(** Stability: whatever relates the elements of the input in their
    order relates the elements of equal key in the output, and the keys
    ascend. *)
Lemma sort_by_pairs (P : A -> A -> Prop) (l : list A) :
  ForallOrdPairs P l -> ForallOrdPairs (tie_ordered key P) (sort_by key l).
Proof.
  intros H; induction H as [|x l Hx Hl IH]; cbn; [constructor|].
  apply insert_by_pairs; [exact IH|].
  apply Forall_forall; intros b Hb.
  rewrite Forall_forall in Hx; apply Hx, (sort_by_In b l), Hb.
Qed.

Lemma sort_by_sorted (l : list A) :
  ForallOrdPairs (fun a b => key a <= key b) (sort_by key l).
Proof.
  apply pairs_impl with (R := tie_ordered key (fun _ _ => True)).
  - intros a b _ _; apply tie_ordered_le.
  - apply sort_by_pairs, pairs_of_all; auto.
Qed.

Lemma insert_by_with_key (k : Z) (x : A) (l : list A) :
  with_key key k (insert_by key x l) = with_key key k (x :: l).
Proof.
  unfold with_key; induction l as [|z l IH]; cbn; [reflexivity|].
  destruct (Z.leb_spec (key x) (key z)) as [Hle|Hgt]; cbn; [reflexivity|].
  rewrite IH; cbn.
  destruct (Z.eqb_spec (key z) k) as [Hz|Hz], (Z.eqb_spec (key x) k) as [Hx|Hx];
    try reflexivity; lia.
Qed.

Lemma sort_by_with_key (k : Z) (l : list A) :
  with_key key k (sort_by key l) = with_key key k l.
Proof.
  induction l as [|x l IH]; cbn [sort_by]; [reflexivity|].
  rewrite insert_by_with_key; unfold with_key in *; cbn; rewrite IH; reflexivity.
Qed.

Lemma sort_by_stable (l : list A) : stable_sort_of key l (sort_by key l).
Proof. split; [apply sort_by_sorted | intros k; apply sort_by_with_key]. Qed.

Lemma with_key_In (k : Z) (l : list A) (a : A) :
  In a (with_key key k l) <-> In a l /\ key a = k.
Proof.
  unfold with_key; rewrite filter_In, Z.eqb_eq; reflexivity.
Qed.

Lemma head_key_least (a : A) (l l' : list A) (b : A) :
  ForallOrdPairs (fun a b => key a <= key b) (a :: l) ->
  (forall k, with_key key k (a :: l) = with_key key k l') ->
  In b l' -> key a <= key b.
Proof.
  intros Hs Heq Hb.
  assert (In b (with_key key (key b) (a :: l))) as Hin.
  { rewrite Heq; apply with_key_In; auto. }
  apply with_key_In in Hin as [[<-|Hin] _]; [lia|].
  inversion Hs as [|? ? Ha _]; subst.
  rewrite Forall_forall in Ha; apply Ha; exact Hin.
Qed.

(** Two lists with ascending keys and the same elements of each key, in
    the same order, are the same list. *)
Lemma stable_sorted_eq (l1 l2 : list A) :
  ForallOrdPairs (fun a b => key a <= key b) l1 ->
  ForallOrdPairs (fun a b => key a <= key b) l2 ->
  (forall k, with_key key k l1 = with_key key k l2) ->
  l1 = l2.
Proof.
  revert l2; induction l1 as [|a t1 IH]; intros [|b t2] H1 H2 Heq.
  - reflexivity.
  - specialize (Heq (key b)); unfold with_key in Heq; cbn in Heq.
    rewrite Z.eqb_refl in Heq; discriminate.
  - specialize (Heq (key a)); unfold with_key in Heq; cbn in Heq.
    rewrite Z.eqb_refl in Heq; discriminate.
  - assert (key a = key b) as Hk.
    { apply Z.le_antisymm.
      - apply (head_key_least a t1 (b :: t2) b H1 Heq); left; reflexivity.
      - apply (head_key_least b t2 (a :: t1) a H2); [|left; reflexivity].
        intros k; symmetry; apply Heq. }
    pose proof (Heq (key a)) as Hhead.
    unfold with_key in Hhead; cbn in Hhead.
    rewrite <- Hk, Z.eqb_refl in Hhead.
    injection Hhead as <- Htail.
    f_equal; apply IH.
    + inversion H1; assumption.
    + inversion H2; assumption.
    + intros k; specialize (Heq k); unfold with_key in *; cbn in Heq.
      destruct (key a =? k); [injection Heq; auto | exact Heq].
Qed.

(** Hence the stable sort of a list is [sort_by] of it. *)
Lemma sort_by_unique (l l' : list A) :
  stable_sort_of key l l' -> l' = sort_by key l.
Proof.
  intros [Hs Hk]; apply stable_sorted_eq; [exact Hs | apply sort_by_sorted |].
  intros k; rewrite Hk, sort_by_with_key; reflexivity.
Qed.
End SortByFacts.

(** ** The aggregator *)

Lemma build_results_returns (has_letters : bool) (l : list (Z * Z)) :
  exists es, build_results has_letters l = Ret es /\ map tuple_of es = l.
Proof.
  induction l as [|[prime dist] l (es & Hes & Hmap)]; cbn [build_results].
  - exists []; auto.
  - assert (exists s, (if has_letters then to_base36 prime else Ret (str prime)) = Ret s)
      as [s ->].
    { destruct has_letters; [apply to_base36_returns | eauto]. }
    rewrite Hes; cbn [bind].
    eexists; split; [reflexivity|].
    cbn; rewrite Hmap; reflexivity.
Qed.

(** [find_closest_primes] raises nothing inside its [try]: its entries are
    the first [count] tuples of the stable sort of the candidates, built
    from an upward list above the query and a downward list below it. *)
Lemma find_closest_primes_shape (w : world) (number count : Z) (has_letters : bool) :
  exists larger smaller es w',
    Forall (fun p => number < p) larger /\
    Forall (fun p => p < number) smaller /\
    find_closest_primes w number count has_letters = (es, w') /\
    map tuple_of es
    = slice_to (sort_by snd (candidates number larger smaller)) count.
Proof.
  unfold find_closest_primes.
  destruct (find_primes_near_larger w number count) as (larger & w1 & -> & Hup).
  destruct (find_primes_near_smaller w1 number count) as (smaller & w2 & -> & Hdown).
  destruct (build_results_returns has_letters
              (slice_to (sort_by snd (candidates number larger smaller)) count))
    as (es & Hes & Hmap).
  cbv zeta; rewrite Hes.
  exists larger, smaller, es, w2; auto.
Qed.

(** Every candidate carries the absolute difference to the query. *)
Lemma candidates_distance (number : Z) (larger smaller : list Z) (t : Z * Z) :
  Forall (fun p => number < p) larger ->
  Forall (fun p => p < number) smaller ->
  In t (candidates number larger smaller) ->
  snd t = Z.abs (fst t - number) /\ 0 <= snd t /\
  ((number < fst t /\ In (fst t) larger) \/ (fst t < number /\ In (fst t) smaller)).
Proof.
  intros Hup Hdown Hin; unfold candidates in Hin.
  rewrite Forall_forall in Hup, Hdown.
  apply in_app_or in Hin as [Hin|Hin]; apply in_map_iff in Hin as (p & <- & Hp); cbn.
  - specialize (Hup p Hp); repeat split; [lia | lia | left; auto].
  - specialize (Hdown p Hp); repeat split; [lia | lia | right; auto].
Qed.

Lemma candidates_pairs (number : Z) (larger smaller : list Z) :
  Forall (fun p => number < p) larger ->
  Forall (fun p => p < number) smaller ->
  ForallOrdPairs (not_down_up number) (candidates number larger smaller).
Proof.
  intros Hup Hdown; rewrite Forall_forall in Hup, Hdown; unfold candidates.
  apply pairs_app.
  - apply pairs_of_all; intros a b Ha _ [Hlt _].
    apply in_map_iff in Ha as (p & <- & Hp); specialize (Hup p Hp); cbn in Hlt; lia.
  - apply pairs_of_all; intros a b _ Hb [_ Hgt].
    apply in_map_iff in Hb as (p & <- & Hp); specialize (Hdown p Hp); cbn in Hgt; lia.
  - intros a b Ha _ [Hlt _].
    apply in_map_iff in Ha as (p & <- & Hp); specialize (Hup p Hp); cbn in Hlt; lia.
Qed.

Lemma slice_to_In {A : Type} (l : list A) (stop : Z) (x : A) :
  In x (slice_to l stop) -> In x l.
Proof. unfold slice_to; destruct (stop <? 0); apply firstn_In. Qed.

Lemma slice_to_pairs {A : Type} (R : A -> A -> Prop) (l : list A) (stop : Z) :
  ForallOrdPairs R l -> ForallOrdPairs R (slice_to l stop).
Proof. unfold slice_to; destruct (stop <? 0); apply pairs_firstn. Qed.

Lemma slice_to_length {A : Type} (l : list A) (stop : Z) :
  0 <= stop -> len (slice_to l stop) <= stop.
Proof.
  intros H; unfold slice_to, len.
  destruct (Z.ltb_spec stop 0); [lia|].
  pose proof (firstn_le_length (Z.to_nat stop) l); lia.
Qed.

(** C3: for every query and every count that is not negative (so for
    [n >= 0] and [k >= 1]), [find_closest_primes] returns at most [count]
    entries, the distance of each is the absolute difference between its
    prime and the query, hence not negative, and the distances never
    decrease along the list. *)
Theorem C3_closest_primes_bounded_sorted :
  forall (w : world) (number count : Z) (has_letters : bool),
    0 <= count ->
    let out := fst (find_closest_primes w number count has_letters) in
    len out <= count /\
    Forall (fun e => distance e = Z.abs (prime_base10 e - number) /\
                     0 <= distance e) out /\
    StronglySorted (fun a b => distance a <= distance b) out.
Proof.
  intros w number count has_letters Hcount out; subst out.
  destruct (find_closest_primes_shape w number count has_letters)
    as (larger & smaller & es & w' & Hup & Hdown & -> & Hmap).
  cbn [fst]; repeat split.
  - unfold len; rewrite <- (length_map tuple_of), Hmap.
    apply slice_to_length; exact Hcount.
  - apply Forall_forall; intros e He.
    apply (in_map tuple_of) in He; rewrite Hmap in He.
    apply slice_to_In, sort_by_In in He.
    destruct (candidates_distance _ _ _ _ Hup Hdown He) as (Hd & Hnn & _).
    split; assumption.
  - apply pairs_sorted.
    apply (pairs_map tuple_of (fun a b => snd a <= snd b)).
    rewrite Hmap; apply slice_to_pairs, sort_by_sorted.
Qed.

Lemma C3_closest_primes_bounded_sorted_witness :
  let out := fst (find_closest_primes (loaded sample_index) 100 2 false) in
  len out <= 2 /\
  Forall (fun e => distance e = Z.abs (prime_base10 e - 100) /\ 0 <= distance e) out /\
  StronglySorted (fun a b => distance a <= distance b) out.
Proof.
  refine (C3_closest_primes_bounded_sorted (loaded sample_index) 100 2 false _).
  discriminate.
Defined.

(** C7: in the list [find_closest_primes] returns, an entry above the
    query stands before every entry below the query that has the same
    distance. *)
Theorem C7_upward_before_downward_on_ties :
  forall (w : world) (number count : Z) (has_letters : bool)
         (i j : nat) (eu ed : entry),
    let out := fst (find_closest_primes w number count has_letters) in
    nth_error out i = Some eu ->
    nth_error out j = Some ed ->
    number < prime_base10 eu ->
    prime_base10 ed < number ->
    distance eu = distance ed ->
    (i < j)%nat.
Proof.
  intros w number count has_letters i j eu ed out Hi Hj Hu Hd Heq; subst out.
  destruct (find_closest_primes_shape w number count has_letters)
    as (larger & smaller & es & w' & Hup & Hdown & Hshape & Hmap).
  rewrite Hshape in Hi, Hj; cbn [fst] in Hi, Hj.
  assert (ForallOrdPairs
            (fun a b => tie_ordered snd (not_down_up number) (tuple_of a) (tuple_of b))
            es) as Hpairs.
  { apply pairs_map; rewrite Hmap.
    apply slice_to_pairs, sort_by_pairs, candidates_pairs; assumption. }
  destruct (Nat.lt_trichotomy i j) as [Hlt|[->|Hgt]]; [exact Hlt | |].
  - rewrite Hi in Hj; injection Hj as ->; lia.
  - exfalso.
    destruct (pairs_nth _ _ _ _ _ _ Hpairs Hgt Hj Hi) as [Hlt|[_ Hno]]; cbn in *.
    + lia.
    + apply Hno; cbn; lia.
Qed.

Lemma C7_upward_before_downward_on_ties_witness :
  fst (find_closest_primes (loaded sample_index) 15 4 false)
  = [Entry 17 "17" 2; Entry 13 "13" 2; Entry 19 "19" 4; Entry 11 "11" 4] /\
  (0 < 1)%nat.
Proof.
  split; [reflexivity|].
  refine (C7_upward_before_downward_on_ties (loaded sample_index) 15 4 false 0 1
            (Entry 17 "17" 2) (Entry 13 "13" 2) eq_refl eq_refl _ _ eq_refl).
  - reflexivity.
  - reflexivity.
Defined.

(** ** The scanner with a loaded buffer: order, soundness, completeness *)

Lemma len_app_one {A : Type} (l : list A) (x : A) : len (l ++ [x]) = len l + 1.
Proof. unfold len; rewrite length_app; cbn; lia. Qed.

Lemma scanned_init (w : world) (buf : bytes) (count step start : Z) :
  scanned w buf count step start (ScanState [] start w).
Proof.
  unfold scanned, visited; cbn; repeat split; try constructor; lia.
Qed.

Lemma scanned_preserved (w : world) (buf : bytes) (count step start : Z)
      (s s' : scan_state) :
  primesdb_data w = Some buf ->
  step = 1 \/ step = -1 ->
  scanned w buf count step start s ->
  scan_body count step s = inl s' ->
  scanned w buf count step start s'.
Proof.
  intros Hw Hstep (Hsw & Hside & Hlen & Hord & Hall & Hcomplete) Hb.
  pose proof (scan_body_continue _ _ _ _ Hb) as (Hg & _).
  destruct Hg as [Hcount Hrange].
  destruct (lookup_returns buf (current s)) as [b Hlook].
  { assert (10 ^ 10 < 10 * 2 ^ 53) by reflexivity.
    split; [apply Z.div_pos; lia | apply Z.div_lt_upper_bound; lia]. }
  rewrite (scan_body_loaded count step s buf b) in Hb;
    [| rewrite Hsw; exact Hw | split; assumption | exact Hlook].
  injection Hb as <-; unfold scanned, visited in *; cbn [scan_world current result].
  assert (forall p, visited step start (current s) p ->
                    visited step start (current s + step) p) as Hgrow.
  { unfold visited; intros p Hp; destruct Hstep as [-> | ->]; lia. }
  assert (visited step start (current s + step) (current s)) as Hcur.
  { unfold visited; destruct Hstep as [-> | ->]; lia. }
  split; [exact Hsw|].
  split; [destruct Hstep as [-> | ->]; lia|].
  assert (Forall (fun p => visited step start (current s + step) p /\
                           1 < p < 10 ^ 10 /\ reported_prime buf p) (result s))
    as Hall'.
  { eapply Forall_impl; [|exact Hall]; cbn; intros p (Hv & Hp); auto. }
  destruct b.
  - repeat split.
    + rewrite len_app_one; lia.
    + apply pairs_app; [exact Hord | repeat constructor |].
      intros a c Ha [<-|[]].
      rewrite Forall_forall in Hall; destruct (Hall a Ha) as (Hv & _).
      unfold visited in Hv; destruct Hstep as [-> | ->]; lia.
    + apply Forall_app; split; [exact Hall'|].
      repeat constructor; auto; lia.
    + intros q Hq Hrep; apply in_or_app.
      destruct (Z.eq_dec q (current s)) as [->|Hne]; [right; left; reflexivity|].
      left; apply Hcomplete; [|exact Hrep].
      unfold visited in *; destruct Hstep as [-> | ->]; lia.
  - repeat split; auto.
    intros q Hq Hrep.
    destruct (Z.eq_dec q (current s)) as [->|Hne].
    + unfold reported_prime in Hrep; rewrite Hlook in Hrep; discriminate.
    + apply Hcomplete; [|exact Hrep].
      unfold visited in *; destruct Hstep as [-> | ->]; lia.
Qed.

(** A scan over a loaded buffer ends in a state that the invariant
    describes and in which the guard fails; the world is untouched. *)
Lemma scan_from_loaded (w : world) (buf : bytes) (number count : Z)
      (direction : string) :
  primesdb_data w = Some buf ->
  exists s',
    scanned w buf count (scan_step direction) (scan_start number direction) s' /\
    ~ scan_guard count s' /\
    scan_from w number count direction = (Ret (result s'), w).
Proof.
  intros Hw.
  destruct (scan_from_exit
              (scanned w buf count (scan_step direction) (scan_start number direction))
              w number count direction) as (s' & Hs' & Hg & Heq).
  - apply scanned_init.
  - intros s s0; apply scanned_preserved; [exact Hw | apply scan_step_cases].
  - exists s'; split; [exact Hs' | split; [exact Hg|]].
    rewrite Heq; destruct Hs' as [-> _]; reflexivity.
Qed.

(** The three ways [find_primes_near] goes: the buffer is there, it is
    loaded on the spot, or it cannot be loaded. *)
Lemma find_primes_near_ways (w : world) (number count : Z) (direction : string) :
  (exists w1 buf, primesdb_data w1 = Some buf /\
                  (primesdb_data w = Some buf /\ w1 = w \/
                   primesdb_data w = None /\ download_primesdb w = (true, w1)) /\
                  find_primes_near w number count direction
                  = scan_from w1 number count direction)
  \/ (primesdb_data w = None /\ fst (download_primesdb w) = false /\
      find_primes_near w number count direction
      = (Ret [], snd (download_primesdb w))).
Proof.
  unfold find_primes_near.
  destruct (primesdb_data w) as [buf|] eqn:Hw.
  - left; exists w, buf; auto.
  - destruct (download_primesdb w) as [[|] w1] eqn:Hd; cbn [negb fst snd].
    + left.
      unfold download_primesdb in Hd.
      destruct (pending w) as [|[c|c|] rest]; try discriminate.
      injection Hd as <-; exists (World (Some c) rest), c; auto.
    + right; auto.
Qed.

Lemma iter_loop_exit_now {St Res : Type} (body : St -> St + Res) (k : nat)
      (s : St) (r : Res) :
  body s = inr r -> iter_loop body k s = inr r.
Proof.
  intros H; induction k as [|k IH]; cbn; [rewrite H; reflexivity|].
  rewrite IH; reflexivity.
Qed.

(** A scan whose guard fails at the start returns the empty list. *)
Lemma scan_from_no_room (w : world) (number count : Z) (direction : string) :
  count <= 0 \/ scan_start number direction <= 1
  \/ 10 ^ 10 <= scan_start number direction ->
  scan_from w number count direction = (Ret [], w).
Proof.
  intros H; unfold scan_from.
  rewrite (iter_loop_exit_now _ _ _ (Ret [], w)); [reflexivity|].
  apply (scan_body_stop count _ (ScanState [] (scan_start number direction) w)).
  unfold scan_guard; cbn; lia.
Qed.

Lemma find_primes_near_no_room (w : world) (number count : Z) (direction : string) :
  count <= 0 \/ scan_start number direction <= 1
  \/ 10 ^ 10 <= scan_start number direction ->
  fst (find_primes_near w number count direction) = Ret [].
Proof.
  intros H.
  destruct (find_primes_near_ways w number count direction)
    as [(w1 & buf & _ & _ & ->)|(_ & _ & ->)]; [|reflexivity].
  rewrite scan_from_no_room by exact H; reflexivity.
Qed.

(** What [find_primes_near] returns over any world: a list, described by
    the invariant of the scan when a buffer is there. *)
Lemma find_primes_near_result (w : world) (number count : Z) (direction : string) :
  exists l w',
    find_primes_near w number count direction = (Ret l, w') /\
    (l = [] \/
     exists buf s',
       primesdb_data w' = Some buf /\
       scanned w' buf count (scan_step direction) (scan_start number direction) s' /\
       ~ scan_guard count s' /\ l = result s').
Proof.
  destruct (find_primes_near_ways w number count direction)
    as [(w1 & buf & Hw1 & _ & ->)|(_ & _ & ->)]; [|eauto].
  destruct (scan_from_loaded w1 buf number count direction Hw1)
    as (s' & Hs' & Hg & ->).
  exists (result s'), w1; split; [reflexivity|].
  right; exists buf, s'; auto.
Qed.

(** X1: for every world, start, count and direction string,
    [find_primes_near] raises nothing and returns at most [count] numbers,
    none at all when [count] is zero or negative. *)
Theorem X1_scan_returns_at_most_count :
  forall (w : world) (number count : Z) (direction : string),
  exists l w',
    find_primes_near w number count direction = (Ret l, w') /\
    len l <= Z.max 0 count /\
    (count <= 0 -> l = []).
Proof.
  intros w number count direction.
  destruct (find_primes_near_result w number count direction)
    as (l & w' & Heq & Hl).
  exists l, w'; split; [exact Heq|].
  assert (len l <= Z.max 0 count) as Hlen.
  { destruct Hl as [->|(buf & s' & _ & Hs' & _ & ->)]; [cbn; lia|].
    destruct Hs' as (_ & _ & Hlen & _); exact Hlen. }
  split; [exact Hlen|].
  intros Hc; destruct l; [reflexivity|].
  unfold len in Hlen; cbn [List.length] in Hlen; lia.
Qed.

(** X2: the upward scan returns a strictly increasing list and the
    downward scan a strictly decreasing one; every number returned lies
    strictly between 1 and [10 ^ 10] and is one for which the combined
    check, in the world the scan leaves, answers [True]. *)
Theorem X2_scan_sorted_and_sound :
  forall (w : world) (number count : Z),
    (exists l w',
        find_primes_near w number count "larger" = (Ret l, w') /\
        StronglySorted Z.lt l /\
        Forall (fun p => 1 < p < 10 ^ 10 /\
                         is_prime_primesdb w' p = (Ret true, w')) l) /\
    (exists l w',
        find_primes_near w number count "smaller" = (Ret l, w') /\
        StronglySorted Z.gt l /\
        Forall (fun p => 1 < p < 10 ^ 10 /\
                         is_prime_primesdb w' p = (Ret true, w')) l).
Proof.
  intros w number count; split.
  - destruct (find_primes_near_result w number count "larger")
      as (l & w' & Heq & Hl).
    exists l, w'; split; [exact Heq|].
    destruct Hl as [->|(buf & s' & Hw' & Hs' & _ & ->)]; [split; constructor|].
    destruct Hs' as (_ & _ & _ & Hord & Hall & _); split.
    + apply pairs_sorted; refine (pairs_impl _ _ _ _ Hord).
      intros a b _ _ H; change (scan_step "larger") with 1 in H; lia.
    + eapply Forall_impl; [|exact Hall]; cbn; intros p (_ & Hr & Hp).
      split; [exact Hr|].
      rewrite (is_prime_primesdb_loaded w' buf) by exact Hw'.
      rewrite Hp; reflexivity.
  - destruct (find_primes_near_result w number count "smaller")
      as (l & w' & Heq & Hl).
    exists l, w'; split; [exact Heq|].
    destruct Hl as [->|(buf & s' & Hw' & Hs' & _ & ->)]; [split; constructor|].
    destruct Hs' as (_ & _ & _ & Hord & Hall & _); split.
    + apply pairs_sorted; refine (pairs_impl _ _ _ _ Hord).
      intros a b _ _ H; change (scan_step "smaller") with (-1) in H; lia.
    + eapply Forall_impl; [|exact Hall]; cbn; intros p (_ & Hr & Hp).
      split; [exact Hr|].
      rewrite (is_prime_primesdb_loaded w' buf) by exact Hw'.
      rewrite Hp; reflexivity.
Qed.



(** ** The aggregator: what its entries are *)

(** How [find_closest_primes] is put together from the two scans. *)
Lemma find_closest_primes_parts (w : world) (number count : Z) (has_letters : bool) :
  exists larger w1 smaller w2 es,
    find_primes_near w number count "larger" = (Ret larger, w1) /\
    find_primes_near w1 number count "smaller" = (Ret smaller, w2) /\
    build_results has_letters
      (slice_to (sort_by snd (candidates number larger smaller)) count) = Ret es /\
    map tuple_of es
    = slice_to (sort_by snd (candidates number larger smaller)) count /\
    find_closest_primes w number count has_letters = (es, w2).
Proof.
  unfold find_closest_primes.
  destruct (find_primes_near_larger w number count) as (larger & w1 & Hl & _).
  destruct (find_primes_near_smaller w1 number count) as (smaller & w2 & Hs & _).
  destruct (build_results_returns has_letters
              (slice_to (sort_by snd (candidates number larger smaller)) count))
    as (es & Hes & Hmap).
  exists larger, w1, smaller, w2, es.
  rewrite Hl, Hs; cbv zeta; rewrite Hes; auto.
Qed.

(** The text of every entry is the rendering of its prime. *)
Lemma build_results_texts (has_letters : bool) (l : list (Z * Z)) (es : list entry) :
  build_results has_letters l = Ret es ->
  Forall (fun e => (if has_letters then to_base36 (prime_base10 e)
                    else Ret (str (prime_base10 e))) = Ret (prime_base36 e)) es.
Proof.
  revert es; induction l as [|[prime dist] l IH]; intros es; cbn [build_results].
  - intros [= <-]; constructor.
  - destruct (if has_letters then to_base36 prime else Ret (str prime))
      as [text|] eqn:Htext; cbn [bind]; [|discriminate].
    destruct (build_results has_letters l) as [rest|]; cbn [bind]; [|discriminate].
    intros [= <-]; constructor; [exact Htext | apply IH; reflexivity].
Qed.

(** Whatever the world, the numbers a scan returns lie between 1 and
    [10 ^ 10]. *)
Lemma find_primes_near_bounds (w : world) (number count : Z) (direction : string)
      (l : list Z) (w' : world) :
  find_primes_near w number count direction = (Ret l, w') ->
  Forall (fun p => 1 < p < 10 ^ 10) l.
Proof.
  intros Heq.
  destruct (find_primes_near_result w number count direction)
    as (l0 & w0 & Heq0 & Hl).
  rewrite Heq in Heq0; injection Heq0 as <- <-.
  destruct Hl as [->|(buf & s' & _ & Hs' & _ & ->)]; [constructor|].
  destruct Hs' as (_ & _ & _ & _ & Hall & _).
  eapply Forall_impl; [|exact Hall]; cbn; tauto.
Qed.

(** X4: [find_closest_primes] returns the empty list whenever [count] is
    zero or negative, the query is zero or negative, or the query exceeds
    [10 ^ 10]; for a query of zero or less the upward scan itself returns
    nothing, the cursor starting at 1 or below. *)
Theorem X4_closest_primes_empty_outside_range :
  forall (w : world) (number count : Z) (has_letters : bool),
    count <= 0 \/ number <= 0 \/ 10 ^ 10 < number ->
    fst (find_closest_primes w number count has_letters) = [] /\
    (count <= 0 \/ number <= 0 ->
     fst (find_primes_near w number count "larger") = Ret []).
Proof.
  intros w number count has_letters Hout; split.
  - destruct (find_closest_primes_parts w number count has_letters)
      as (larger & w1 & smaller & w2 & es & Hl & Hs & _ & Hmap & ->).
    cbn [fst].
    assert (fst (find_primes_near w number count "larger") = Ret []) as Hl'.
    { apply find_primes_near_no_room.
      change (scan_start number "larger") with (number + 1); lia. }
    assert (fst (find_primes_near w1 number count "smaller") = Ret []) as Hs'.
    { apply find_primes_near_no_room.
      change (scan_start number "smaller") with (number - 1); lia. }
    rewrite Hl in Hl'; rewrite Hs in Hs'; cbn [fst] in Hl', Hs'.
    injection Hl' as ->; injection Hs' as ->.
    assert (slice_to (sort_by snd (candidates number [] [])) count = []) as Hnil.
    { unfold slice_to; cbn; destruct (count <? 0); apply firstn_nil. }
    rewrite Hnil in Hmap; destruct es; [reflexivity | discriminate].
  - intros H; apply find_primes_near_no_room.
    change (scan_start number "larger") with (number + 1); lia.
Qed.

Lemma X4_closest_primes_empty_outside_range_witness :
  fst (find_closest_primes (loaded sample_index) 0 5 false) = [] /\
  fst (find_primes_near (loaded sample_index) 0 5 "larger") = Ret [].
Proof.
  destruct (X4_closest_primes_empty_outside_range (loaded sample_index) 0 5 false)
    as [H1 H2].
  - right; left; discriminate.
  - split; [exact H1 | apply H2; right; discriminate].
Defined.

(** What every entry of the output is: a candidate of one of the scans. *)
Lemma find_closest_primes_entries (w : world) (number count : Z) (has_letters : bool)
      (e : entry) :
  In e (fst (find_closest_primes w number count has_letters)) ->
  exists larger w1 smaller w2,
    find_primes_near w number count "larger" = (Ret larger, w1) /\
    find_primes_near w1 number count "smaller" = (Ret smaller, w2) /\
    (In (prime_base10 e) larger \/ In (prime_base10 e) smaller) /\
    (if has_letters then to_base36 (prime_base10 e)
     else Ret (str (prime_base10 e))) = Ret (prime_base36 e).
Proof.
  destruct (find_closest_primes_parts w number count has_letters)
    as (larger & w1 & smaller & w2 & es & Hl & Hs & Hbuild & Hmap & ->).
  cbn [fst]; intros He.
  exists larger, w1, smaller, w2; repeat split; auto.
  - apply (in_map tuple_of) in He; rewrite Hmap in He.
    apply slice_to_In, sort_by_In in He.
    unfold candidates in He; apply in_app_or in He as [He|He];
      apply in_map_iff in He as (p & Hp & Hin);
      unfold tuple_of in Hp; injection Hp as <- _; auto.
  - pose proof (build_results_texts _ _ _ Hbuild) as Htexts.
    rewrite Forall_forall in Htexts; apply Htexts; exact He.
Qed.

(** X5: every entry [find_closest_primes] returns carries the rendering of
    its prime: with [has_letters] the base-36 string, which [to_base10]
    decodes back to the prime, and otherwise the decimal string; the prime
    is greater than 1. *)
Theorem X5_entry_text_decodes_to_prime :
  forall (w : world) (number count : Z) (has_letters : bool),
    Forall (fun e =>
              1 < prime_base10 e /\
              if has_letters
              then to_base36 (prime_base10 e) = Ret (prime_base36 e) /\
                   to_base10 (prime_base36 e) = Ret (prime_base10 e)
              else prime_base36 e = str (prime_base10 e))
           (fst (find_closest_primes w number count has_letters)).
Proof.
  intros w number count has_letters; apply Forall_forall; intros e He.
  destruct (find_closest_primes_entries w number count has_letters e He)
    as (larger & w1 & smaller & w2 & Hl & Hs & Hin & Htext).
  assert (1 < prime_base10 e) as Hpos.
  { pose proof (find_primes_near_bounds _ _ _ _ _ _ Hl) as Hb.
    pose proof (find_primes_near_bounds _ _ _ _ _ _ Hs) as Hb'.
    rewrite Forall_forall in Hb, Hb'.
    destruct Hin as [Hin|Hin]; [apply (Hb _ Hin) | apply (Hb' _ Hin)]. }
  split; [exact Hpos|].
  destruct has_letters.
  - split; [exact Htext|].
    destruct (to_base36_decodes (prime_base10 e)) as (s & Henc & Hdec & _); [lia|].
    rewrite Htext in Henc; injection Henc as <-; exact Hdec.
  - injection Htext as <-; reflexivity.
Qed.

(** ** The aggregator over a loaded buffer: distinct, nearest *)

Section SortedPrefix.
Context {A : Type}.
Variable key : A -> Z.

Lemma pairs_app_cross (R : A -> A -> Prop) (l1 l2 : list A) (a b : A) :
  ForallOrdPairs R (l1 ++ l2) -> In a l1 -> In b l2 -> R a b.
Proof.
  induction l1 as [|x l1 IH]; cbn; intros H Ha Hb; [contradiction|].
  inversion H as [|? ? Hx Hrest]; subst.
  destruct Ha as [->|Ha]; [|apply IH; assumption].
  rewrite Forall_forall in Hx; apply Hx, in_or_app; right; exact Hb.
Qed.

Lemma In_firstn_or_skipn (k : nat) (l : list A) (x : A) :
  In x l -> In x (firstn k l) \/ In x (skipn k l).
Proof.
  intros H; rewrite <- (firstn_skipn k l) in H; apply in_app_or in H; exact H.
Qed.

(** An element of a sorted list that is not among the first [k] comes after
    them: they are [k], and none has a larger key. *)
Lemma firstn_sorted_rest (l : list A) (k : nat) (x : A) :
  ForallOrdPairs (fun a b => key a <= key b) l ->
  In x l -> ~ In x (firstn k l) ->
  Forall (fun e => key e <= key x) (firstn k l) /\ List.length (firstn k l) = k.
Proof.
  intros Hs Hx Hnot.
  destruct (In_firstn_or_skipn k l x Hx) as [Hin|Hin]; [contradiction|].
  rewrite <- (firstn_skipn k l) in Hs; split.
  - apply Forall_forall; intros e He.
    exact (pairs_app_cross _ _ _ _ _ Hs He Hin).
  - rewrite length_firstn; apply Nat.min_l.
    assert (List.length (skipn k l) <> 0)%nat as Hne
        by (destruct (skipn k l); [contradiction | discriminate]).
    rewrite length_skipn in Hne; lia.
Qed.

(** When at least [k] distinct elements of a sorted list have a key below
    [d], so have all of its first [k]. *)
Lemma firstn_sorted_nearest (l : list A) (k : nat) (S : list A) (d : Z) :
  ForallOrdPairs (fun a b => key a <= key b) l ->
  NoDup S -> incl S l -> (k <= List.length S)%nat ->
  Forall (fun s => key s < d) S ->
  Forall (fun e => key e < d) (firstn k l) /\ List.length (firstn k l) = k.
Proof.
  intros Hs Hnd Hincl Hk Hlt.
  pose proof (NoDup_incl_length Hnd Hincl) as Hlen.
  split; [|rewrite length_firstn; lia].
  apply Forall_forall; intros e He.
  destruct (Z_lt_ge_dec (key e) d) as [|Hge]; [assumption|exfalso].
  rewrite Forall_forall in Hlt.
  assert (NoDup (e :: S)) as Hnd'.
  { constructor; [|exact Hnd]. intros Hin; specialize (Hlt e Hin); lia. }
  assert (incl (e :: S) (firstn k l)) as Hincl'.
  { intros s [<-|Hin]; [exact He|].
    destruct (In_firstn_or_skipn k l s (Hincl s Hin)) as [|Hskip]; [assumption|].
    exfalso; rewrite <- (firstn_skipn k l) in Hs.
    pose proof (pairs_app_cross _ _ _ _ _ Hs He Hskip) as Hle; cbn in Hle.
    specialize (Hlt s Hin); lia. }
  pose proof (NoDup_incl_length Hnd' Hincl') as Hlen'.
  pose proof (firstn_le_length k l) as Hfl.
  cbn [List.length] in Hlen'; lia.
Qed.

Lemma pairs_irrefl_NoDup (R : A -> A -> Prop) (l : list A) :
  (forall a, ~ R a a) -> ForallOrdPairs R l -> NoDup l.
Proof.
  intros Hirr H; induction H as [|a l Ha Hl IH]; constructor; [|exact IH].
  intros Hin; rewrite Forall_forall in Ha; exact (Hirr a (Ha a Hin)).
Qed.

Lemma NoDup_firstn (k : nat) (l : list A) : NoDup l -> NoDup (firstn k l).
Proof.
  intros H; rewrite <- (firstn_skipn k l) in H.
  exact (NoDup_app_remove_r _ _ H).
Qed.
End SortedPrefix.

(** The aggregator over a loaded buffer: both scans run, over the same
    world, and end as the invariant says. *)
Lemma find_closest_primes_loaded (w : world) (buf : bytes) (number count : Z)
      (has_letters : bool) :
  primesdb_data w = Some buf ->
  exists su sd es,
    scanned w buf count 1 (number + 1) su /\ ~ scan_guard count su /\
    scanned w buf count (-1) (number - 1) sd /\ ~ scan_guard count sd /\
    map tuple_of es
    = slice_to (sort_by snd (candidates number (result su) (result sd))) count /\
    find_closest_primes w number count has_letters = (es, w).
Proof.
  intros Hw.
  destruct (find_closest_primes_parts w number count has_letters)
    as (larger & w1 & smaller & w2 & es & Hl & Hs & _ & Hmap & ->).
  unfold find_primes_near in Hl; rewrite Hw in Hl.
  destruct (scan_from_loaded w buf number count "larger" Hw) as (su & Hsu & Hgu & Heq).
  rewrite Heq in Hl; injection Hl as <- <-.
  unfold find_primes_near in Hs; rewrite Hw in Hs.
  destruct (scan_from_loaded w buf number count "smaller" Hw) as (sd & Hsd & Hgd & Heq').
  rewrite Heq' in Hs; injection Hs as <- <-.
  exists su, sd, es.
  split; [exact Hsu|]. split; [exact Hgu|].
  split; [exact Hsd|]. split; [exact Hgd|].
  split; [exact Hmap | reflexivity].
Qed.

Lemma candidates_primes (number : Z) (larger smaller : list Z) :
  map fst (candidates number larger smaller) = larger ++ smaller.
Proof.
  unfold candidates; rewrite map_app, !map_map; cbn; rewrite !map_id; reflexivity.
Qed.

Lemma map_prime_base10 (es : list entry) :
  map prime_base10 es = map fst (map tuple_of es).
Proof. rewrite map_map; reflexivity. Qed.

Lemma slice_to_NoDup {A : Type} (l : list A) (stop : Z) :
  NoDup l -> NoDup (slice_to l stop).
Proof. unfold slice_to; destruct (stop <? 0); apply NoDup_firstn. Qed.

Lemma slice_to_map {A B : Type} (f : A -> B) (l : list A) (stop : Z) :
  map f (slice_to l stop) = slice_to (map f l) stop.
Proof.
  unfold slice_to, len; rewrite length_map.
  destruct (stop <? 0); symmetry; apply firstn_map.
Qed.

(** The entries over a loaded buffer: distinct primes, each reported by the
    lookup, none the query. *)
Lemma closest_primes_distinct (w : world) (buf : bytes) (number count : Z)
      (has_letters : bool) :
  primesdb_data w = Some buf ->
  exists es,
    find_closest_primes w number count has_letters = (es, w) /\
    NoDup (map prime_base10 es) /\
    Forall (fun e => reported_prime buf (prime_base10 e) /\
                     prime_base10 e <> number) es.
Proof.
  revert w buf number count has_letters.
  intros w buf number count has_letters Hw.
  destruct (find_closest_primes_loaded w buf number count has_letters Hw)
    as (su & sd & es & Hsu & _ & Hsd & _ & Hmap & Heq).
  exists es; split; [exact Heq|].
  destruct Hsu as (_ & _ & _ & Hordu & Hallu & _).
  destruct Hsd as (_ & _ & _ & Hordd & Halld & _).
  rewrite Forall_forall in Hallu, Halld.
  split.
  - rewrite map_prime_base10, Hmap, slice_to_map.
    apply slice_to_NoDup.
    apply (Permutation_NoDup
             (Permutation_map fst (sort_by_perm snd
                (candidates number (result su) (result sd))))).
    rewrite candidates_primes; apply NoDup_app.
    + apply (pairs_irrefl_NoDup _ _ (fun a => Z.lt_irrefl (1 * a)) Hordu).
    + apply (pairs_irrefl_NoDup _ _ (fun a => Z.lt_irrefl (-1 * a)) Hordd).
    + intros p Hu Hd.
      destruct (Hallu p Hu) as (Hvu & _), (Halld p Hd) as (Hvd & _).
      unfold visited in *; lia.
  - apply Forall_forall; intros e He.
    apply (in_map tuple_of) in He; rewrite Hmap in He.
    apply slice_to_In, sort_by_In in He.
    unfold candidates in He; apply in_app_or in He as [He|He];
      apply in_map_iff in He as (p & Hp & Hin);
      unfold tuple_of in Hp; injection Hp as <- _.
    + destruct (Hallu p Hin) as (Hv & _ & Hrep); unfold visited in Hv.
      split; [exact Hrep | lia].
    + destruct (Halld p Hin) as (Hv & _ & Hrep); unfold visited in Hv.
      split; [exact Hrep | lia].
Qed.

(** X6: with a loaded buffer the primes of the entries
    [find_closest_primes] returns are pairwise distinct, none is the query
    itself, each is reported prime by the lookup, and the world is left as
    it was. *)
Theorem X6_closest_primes_distinct_reported :
  forall (w : world) (buf : bytes) (number count : Z) (has_letters : bool),
    primesdb_data w = Some buf ->
    exists es,
      find_closest_primes w number count has_letters = (es, w) /\
      NoDup (map prime_base10 es) /\
      Forall (fun e => reported_prime buf (prime_base10 e) /\
                       prime_base10 e <> number) es.
Proof. exact closest_primes_distinct. Qed.

Lemma X6_closest_primes_distinct_reported_witness :
  exists es,
    find_closest_primes (loaded sample_index) 100 6 true
    = (es, loaded sample_index) /\
    NoDup (map prime_base10 es) /\
    Forall (fun e => reported_prime sample_index (prime_base10 e) /\
                     prime_base10 e <> 100) es.
Proof.
  exact (X6_closest_primes_distinct_reported (loaded sample_index) sample_index
           100 6 true eq_refl).
Defined.

(** One side of the candidates decides what the first [k] of the sorted
    list look like, relative to a tuple [t] that is not among them: either
    [t] is a candidate of that side, or the side is full and nearer. *)
Lemma prefix_nearest (l side : list (Z * Z)) (k : nat) (t : Z * Z) :
  ForallOrdPairs (fun a b => snd a <= snd b) l ->
  NoDup side -> incl side l ->
  In t side \/ ((k <= List.length side)%nat /\ Forall (fun s => snd s < snd t) side) ->
  ~ In t (firstn k l) ->
  Forall (fun e => snd e <= snd t) (firstn k l) /\ List.length (firstn k l) = k.
Proof.
  intros Hs Hnd Hincl [Hin|[Hk Hlt]] Hnot.
  - apply firstn_sorted_rest; auto.
  - destruct (firstn_sorted_nearest snd l k side (snd t) Hs Hnd Hincl Hk Hlt)
      as [Hall Hlen].
    split; [|exact Hlen].
    eapply Forall_impl; [|exact Hall]; cbn; intros; lia.
Qed.

Lemma scanned_side_NoDup (w : world) (buf : bytes) (count step start : Z)
      (s : scan_state) (f : Z -> Z) :
  step = 1 \/ step = -1 ->
  scanned w buf count step start s ->
  NoDup (map (fun p => (p, f p)) (result s)).
Proof.
  intros Hstep (_ & _ & _ & Hord & _).
  apply (NoDup_map_inv fst); rewrite map_map; cbn; rewrite map_id.
  apply (pairs_irrefl_NoDup _ _ (fun a => Z.lt_irrefl (step * a)) Hord).
Qed.

(** A reported prime that is not among the entries is no nearer than any
    of them, and then the result is full. *)
Lemma closest_primes_nearest (w : world) (buf : bytes) (number count : Z)
      (has_letters : bool) (q : Z) :
  primesdb_data w = Some buf ->
  1 <= number <= 10 ^ 10 ->
  q < 10 ^ 10 -> q <> number ->
  reported_prime buf q ->
  let out := fst (find_closest_primes w number count has_letters) in
  In q (map prime_base10 out) \/
  (count <= len out /\
   Forall (fun e => distance e <= Z.abs (q - number)) out).
Proof.
  revert w buf number count has_letters q.
  intros w buf number count has_letters q Hw Hnum Hq Hne Hrep out; subst out.
  destruct (find_closest_primes_loaded w buf number count has_letters Hw)
    as (su & sd & es & Hsu & Hgu & Hsd & Hgd & Hmap & ->).
  cbn [fst].
  destruct (in_dec Z.eq_dec q (map prime_base10 es)) as [Hin|Hnot]; [left; exact Hin|].
  right.
  pose proof (lookup_true_ge_2 _ _ Hrep) as Hq2.
  set (cands := candidates number (result su) (result sd)) in *.
  set (d := Z.abs (q - number)).
  assert (count <= len (slice_to (sort_by snd cands) count) /\
          Forall (fun t => snd t <= d) (slice_to (sort_by snd cands) count))
    as [Hlen Hall].
  { destruct (Z_lt_ge_dec count 0) as [Hneg|Hpos].
    { split; [unfold len; lia|].
      subst cands.
      destruct Hsu as (_ & _ & Hlu & _), Hsd as (_ & _ & Hld & _).
      assert (result su = []) as -> by (destruct (result su); [reflexivity | unfold len in Hlu; cbn in Hlu; lia]).
      assert (result sd = []) as -> by (destruct (result sd); [reflexivity | unfold len in Hld; cbn in Hld; lia]).
      unfold slice_to; cbn; destruct (count <? 0); rewrite firstn_nil; constructor. }
    unfold slice_to; destruct (Z.ltb_spec count 0) as [|_]; [lia|].
    assert (~ In (q, d) (firstn (Z.to_nat count) (sort_by snd cands))) as Hnotin.
    { intros Hin; apply Hnot.
      rewrite map_prime_base10, Hmap.
      unfold slice_to; destruct (Z.ltb_spec count 0) as [|_]; [lia|].
      apply (in_map fst) in Hin; exact Hin. }
    assert (forall side,
               NoDup side -> incl side cands ->
               In (q, d) side \/
               ((Z.to_nat count <= List.length side)%nat /\
                Forall (fun s => snd s < d) side) ->
               count <= len (firstn (Z.to_nat count) (sort_by snd cands)) /\
               Forall (fun t => snd t <= d)
                      (firstn (Z.to_nat count) (sort_by snd cands))) as Hside.
    { intros side Hnd Hincl Hcase.
      destruct (prefix_nearest (sort_by snd cands) side (Z.to_nat count) (q, d))
        as [Hall Hlen]; auto.
      - apply sort_by_sorted.
      - intros t Ht; apply sort_by_In, Hincl, Ht.
      - split; [unfold len; lia | exact Hall]. }
    destruct (Z_lt_ge_dec number q) as [Hup|Hdown].
    - apply (Hside (map (fun p => (p, p - number)) (result su))).
      + apply (scanned_side_NoDup w buf count 1 (number + 1)); auto.
      + intros t Ht; unfold cands, candidates; apply in_or_app; left; exact Ht.
      + destruct Hsu as (_ & Hsideu & _ & _ & Hallu & Hcomplete).
        destruct (Z_lt_ge_dec q (current su)) as [Hlt|Hge].
        * left; apply in_map_iff; exists q; split; [f_equal; unfold d; lia|].
          apply Hcomplete; [unfold visited; lia | exact Hrep].
        * right; split.
          -- rewrite length_map; unfold scan_guard, len in Hgu; lia.
          -- apply Forall_map; eapply Forall_impl; [|exact Hallu]; cbn.
             unfold visited, d; intros p (Hv & _); lia.
    - apply (Hside (map (fun p => (p, number - p)) (result sd))).
      + apply (scanned_side_NoDup w buf count (-1) (number - 1)); auto.
      + intros t Ht; unfold cands, candidates; apply in_or_app; right; exact Ht.
      + destruct Hsd as (_ & Hsided & _ & _ & Halld & Hcomplete).
        destruct (Z_lt_ge_dec (current sd) q) as [Hlt|Hge].
        * left; apply in_map_iff; exists q; split; [f_equal; unfold d; lia|].
          apply Hcomplete; [unfold visited; lia | exact Hrep].
        * right; split.
          -- rewrite length_map; unfold scan_guard, len in Hgd; lia.
          -- apply Forall_map; eapply Forall_impl; [|exact Halld]; cbn.
             unfold visited, d; intros p (Hv & _); lia. }
  split.
  - unfold len in *; rewrite <- (length_map tuple_of), Hmap; exact Hlen.
  - apply Forall_forall; intros e He.
    rewrite Forall_forall in Hall; apply (Hall (tuple_of e)).
    rewrite <- Hmap; apply in_map; exact He.
Qed.

(** X7: the entries are the nearest reported primes.  With a loaded buffer
    and a query from 1 to [10 ^ 10], every number below [10 ^ 10] other than
    the query that the lookup reports prime either is among the primes
    returned, or the result is full ([count] entries) and no entry lies
    farther from the query than that number. *)
Theorem X7_closest_primes_are_nearest :
  forall (w : world) (buf : bytes) (number count : Z) (has_letters : bool) (q : Z),
    primesdb_data w = Some buf ->
    1 <= number <= 10 ^ 10 ->
    q < 10 ^ 10 -> q <> number ->
    reported_prime buf q ->
    let out := fst (find_closest_primes w number count has_letters) in
    In q (map prime_base10 out) \/
    (count <= len out /\
     Forall (fun e => distance e <= Z.abs (q - number)) out).
Proof. exact closest_primes_nearest. Qed.

Lemma X7_closest_primes_are_nearest_witness :
  let out := fst (find_closest_primes (loaded sample_index) 100 2 false) in
  In 97 (map prime_base10 out) \/
  (2 <= len out /\ Forall (fun e => distance e <= Z.abs (97 - 100)) out).
Proof.
  refine (X7_closest_primes_are_nearest (loaded sample_index) sample_index
            100 2 false 97 eq_refl _ _ _ eq_refl).
  - split; discriminate.
  - reflexivity.
  - discriminate.
Defined.

(** ** Rounding to 53 bits stays between the neighbouring powers of two *)

Lemma round53_pos_bounds (m : Z) :
  0 < m -> 2 ^ Z.log2 m <= round53_pos m <= 2 ^ (Z.log2 m + 1).
Proof.
  intros Hm.
  destruct (Z.log2_spec m Hm) as [Hlo Hhi].
  pose proof (Z.log2_nonneg m) as HL.
  rewrite <- Z.add_1_r in Hhi.
  unfold round53_pos.
  destruct (Z.leb_spec (Z.log2 m + 1) 53) as [_|Hbig]; [lia|].
  set (sh := Z.log2 m + 1 - 53).
  assert (0 < sh) as Hsh by (unfold sh; lia).
  rewrite Z.shiftr_div_pow2 by lia.
  set (q := m / 2 ^ sh).
  assert (0 < 2 ^ sh) as Hpow by (apply Z.pow_pos_nonneg; lia).
  assert (2 ^ Z.log2 m = 2 ^ 52 * 2 ^ sh) as HeqL.
  { rewrite <- Z.pow_add_r by lia; f_equal; unfold sh; lia. }
  assert (2 ^ (Z.log2 m + 1) = 2 ^ 53 * 2 ^ sh) as HeqH.
  { rewrite <- Z.pow_add_r by lia; f_equal; unfold sh; lia. }
  assert (2 ^ 52 <= q < 2 ^ 53) as Hq.
  { unfold q; split.
    - apply Z.div_le_lower_bound; lia.
    - apply Z.div_lt_upper_bound; lia. }
  rewrite HeqL, HeqH.
  destruct (_ || _); rewrite Z.shiftl_mul_pow2 by lia; nia.
Qed.

Lemma round53_ge_pow2 (m k : Z) :
  0 <= k -> 2 ^ k <= m -> 2 ^ k <= round53 m.
Proof.
  intros Hk Hm.
  assert (0 < 2 ^ k) by (apply Z.pow_pos_nonneg; lia).
  unfold round53; rewrite Z.sgn_pos, Z.abs_eq, Z.mul_1_l by lia.
  destruct (round53_pos_bounds m ltac:(lia)) as [Hlo _].
  assert (k <= Z.log2 m) by (apply Z.log2_le_pow2; lia).
  assert (2 ^ k <= 2 ^ Z.log2 m) by (apply Z.pow_le_mono_r; lia).
  lia.
Qed.

Lemma round53_le_pow2 (m k : Z) :
  0 <= k -> 0 <= m < 2 ^ k -> 0 <= round53 m <= 2 ^ k.
Proof.
  intros Hk Hm.
  destruct (Z.eq_dec m 0) as [->|Hnz].
  { unfold round53; cbn. assert (0 < 2 ^ k) by (apply Z.pow_pos_nonneg; lia). lia. }
  unfold round53; rewrite Z.sgn_pos, Z.abs_eq, Z.mul_1_l by lia.
  destruct (round53_pos_bounds m ltac:(lia)) as [Hlo Hhi].
  assert (Z.log2 m < k) by (apply Z.log2_lt_pow2; lia).
  assert (2 ^ (Z.log2 m + 1) <= 2 ^ k) by (apply Z.pow_le_mono_r; lia).
  assert (0 < 2 ^ Z.log2 m)
    by (apply Z.pow_pos_nonneg; [lia | apply Z.log2_nonneg]).
  lia.
Qed.

(** From decade [2 ^ 53] on, where floats no longer hold every integer, the
    address is at least [2 ^ 52 - 1], if it is computed at all. *)
Lemma address_of_large (decade : Z) :
  2 ^ 53 <= decade ->
  address_of decade = Raise OverflowError \/
  exists a, address_of decade = Ret a /\ 2 ^ 52 - 1 <= a.
Proof.
  intros Hd; unfold address_of, true_div2.
  destruct (2 ^ 1025 <=? Z.abs (round53 decade)); [left; reflexivity|right].
  cbn [bind]; eexists; split; [reflexivity|].
  pose proof (round53_ge_pow2 decade 53 ltac:(lia) Hd) as Hx.
  unfold add_half, int_of_float.
  pose proof (round53_ge_pow2 (round53 decade + 1) 53 ltac:(lia) ltac:(lia)) as Hy.
  rewrite Z.quot_div_nonneg by lia.
  assert (2 ^ 52 <= round53 (round53 decade + 1) / 2).
  { apply Z.div_le_lower_bound; [lia|]. change (2 * 2 ^ 52) with (2 ^ 53); exact Hy. }
  lia.
Qed.

(** Below decade [2 ^ 1024] the division does not overflow. *)
Lemma address_of_returns (decade : Z) :
  0 <= decade < 2 ^ 1024 -> exists a, address_of decade = Ret a.
Proof.
  intros Hd; unfold address_of, true_div2.
  pose proof (round53_le_pow2 decade 1024 ltac:(lia) Hd) as Hx.
  destruct (Z.leb_spec (2 ^ 1025) (Z.abs (round53 decade))) as [Hbig|_];
    [|cbn [bind]; eauto].
  exfalso.
  assert (2 ^ 1024 < 2 ^ 1025) by (apply Z.pow_lt_mono_r; lia).
  lia.
Qed.

(** From decade [2 ^ 1025] on it does. *)
Lemma address_of_overflows (decade : Z) :
  2 ^ 1025 <= decade -> address_of decade = Raise OverflowError.
Proof.
  intros Hd; unfold address_of, true_div2.
  pose proof (round53_ge_pow2 decade 1025 ltac:(lia) Hd) as Hx.
  destruct (Z.leb_spec (2 ^ 1025) (Z.abs (round53 decade))) as [_|Hsmall];
    [reflexivity | lia].
Qed.

(** ** The lookup on a buffer that holds the truth *)

Lemma Z_range_forallb (P : Z -> bool) (lo : Z) (k : nat) :
  forallb P (map (fun i => lo + Z.of_nat i) (seq 0 k)) = true ->
  forall n, lo <= n < lo + Z.of_nat k -> P n = true.
Proof.
  intros Hall n Hn.
  rewrite forallb_forall in Hall; apply Hall.
  apply in_map_iff; exists (Z.to_nat (n - lo)); split; [lia|].
  apply in_seq; lia.
Qed.

(** The sample holds the truth about the numbers it covers. *)
Lemma sample_index_correct : index_correct sample_index.
Proof.
  intros n Hs Ha.
  rewrite spec_address_eq in Ha.
  change (len sample_index) with 6 in Ha.
  assert (10 <= n < 10 + Z.of_nat 120) as Hn.
  { pose proof (Z.div_mod n 10 ltac:(lia)).
    pose proof (Z.mod_pos_bound n 10 ltac:(lia)).
    pose proof (Z.div_mod (n / 10 + 1) 2 ltac:(lia)).
    pose proof (Z.mod_pos_bound (n / 10 + 1) 2 ltac:(lia)).
    lia. }
  destruct Hs as (_ & _ & _ & _ & _ & M2 & M3 & M5 & _).
  pose proof (Z_range_forallb
    (fun n => (n mod 2 =? 0) || (n mod 3 =? 0) || (n mod 5 =? 0) ||
              Bool.eqb (Z.testbit (byte_at sample_index (spec_address n))
                                  (spec_bit_pos n)) (is_prime n))
    10 120 ltac:(vm_compute; reflexivity) n Hn) as Hc.
  cbv beta in Hc.
  apply Z.eqb_neq in M2, M3, M5; rewrite M2, M3, M5 in Hc; cbn [orb] in Hc.
  apply Bool.eqb_prop; exact Hc.
Qed.

(** With a buffer that holds the truth the lookup answers as the oracle
    does, in range or not, exact floats or not, as long as the division
    does not overflow. *)
Lemma lookup_correct_index (buf : bytes) (n : Z) :
  index_correct buf -> len buf < 2 ^ 52 -> n / 10 < 2 ^ 1024 ->
  lookup (Some buf) n = Ret (is_prime n).
Proof.
  intros Hidx Hlen Hn.
  destruct (lookup_fast_path n) as [Hs|Hfast]; [|apply Hfast].
  pose proof (survivor_ge_11 n Hs) as H11.
  assert (1 <= n / 10) as Hd1 by (apply Z.div_le_lower_bound; lia).
  assert (0 <= len buf) as Hlen0 by (unfold len; lia).
  destruct (Z.lt_ge_cases (spec_address n) (len buf)) as [Hin|Hout].
  { rewrite lookup_in_range; [f_equal; apply Hidx; [exact Hs|] | exact Hs | exact Hlen |];
      rewrite spec_address_eq in *;
      pose proof (Z.div_mod (n / 10 + 1) 2 ltac:(lia));
      pose proof (Z.mod_pos_bound (n / 10 + 1) 2 ltac:(lia)); lia. }
  rewrite lookup_survivor by exact Hs.
  destruct (Z.lt_ge_cases (n / 10) (2 ^ 53)) as [Hsmall|Hbig].
  - rewrite address_of_exact by lia; cbn [bind len_of].
    rewrite <- spec_address_eq.
    destruct (spec_address n <? 0); [reflexivity|].
    destruct (Z.geb_spec (spec_address n) (len buf)) as [|]; [reflexivity | lia].
  - destruct (address_of_returns (n / 10) ltac:(lia)) as [a Ha].
    destruct (address_of_large (n / 10) Hbig) as [Hr|(a' & Ha' & Hge)];
      [congruence|].
    rewrite Ha in *; injection Ha' as <-; cbn [bind len_of].
    destruct (a <? 0); [reflexivity|].
    destruct (Z.geb_spec a (len buf)) as [|]; [reflexivity | lia].
Qed.

(** X8: when the loaded buffer holds the truth (and is shorter than
    [2 ^ 52] bytes), the combined check agrees with primality for every
    integer below [10 * 2 ^ 1024], whether the number is settled by the fast
    path, read from the buffer or beyond its end, and leaves the world as it
    is. *)
Theorem X8_correct_index_decides_primality :
  forall (w : world) (buf : bytes) (n : Z),
    primesdb_data w = Some buf ->
    index_correct buf ->
    len buf < 2 ^ 52 ->
    n / 10 < 2 ^ 1024 ->
    is_prime_primesdb w n = (Ret (is_prime n), w) /\
    (is_prime_primesdb w n = (Ret true, w) <-> prime_number n).
Proof.
  intros w buf n Hw Hidx Hlen Hn.
  rewrite (is_prime_primesdb_loaded w buf) by exact Hw.
  rewrite lookup_correct_index by assumption.
  split; [reflexivity|].
  rewrite <- is_prime_correct.
  split; [intros H; injection H as H; exact H | intros ->; reflexivity].
Qed.

Lemma X8_correct_index_decides_primality_witness :
  is_prime_primesdb (loaded sample_index) 10000000019
  = (Ret (is_prime 10000000019), loaded sample_index).
Proof.
  refine (proj1 (X8_correct_index_decides_primality
                   (loaded sample_index) sample_index 10000000019
                   eq_refl sample_index_correct _ _)).
  - reflexivity.
  - reflexivity.
Defined.

(** X9: a number that passes the fast path and whose decade is [2 ^ 1025]
    or more makes the combined check raise [OverflowError], from the true
    division [decade / 2]; nothing catches it there. *)
Theorem X9_huge_number_overflows :
  forall (w : world) (buf : bytes) (n : Z),
    primesdb_data w = Some buf ->
    survives_fast_path n ->
    2 ^ 1025 <= n / 10 ->
    is_prime_primesdb w n = (Raise OverflowError, w).
Proof.
  intros w buf n Hw Hs Hbig.
  rewrite (is_prime_primesdb_loaded w buf) by exact Hw.
  rewrite lookup_survivor by exact Hs.
  rewrite address_of_overflows by exact Hbig; reflexivity.
Qed.

Lemma X9_huge_number_overflows_witness :
  is_prime_primesdb (loaded sample_index) (30 * 2 ^ 1025 + 1)
  = (Raise OverflowError, loaded sample_index).
Proof.
  refine (X9_huge_number_overflows (loaded sample_index) sample_index
            (30 * 2 ^ 1025 + 1) eq_refl _ _).
  - unfold survives_fast_path; repeat split;
      try (intros H; vm_compute in H; discriminate).
    left; reflexivity.
  - vm_compute; discriminate.
Defined.

(** ** Two loops in step *)

Section Simulation.
Context {S1 S2 R1 R2 : Type}.
Variable b1 : S1 -> S1 + R1.
Variable b2 : S2 -> S2 + R2.
Variable rel : S1 -> S2 -> Prop.
Variable relr : R1 -> R2 -> Prop.

Hypothesis step_related :
  forall s1 s2, rel s1 s2 ->
    match b1 s1, b2 s2 with
    | inl a, inl b => rel a b
    | inr a, inr b => relr a b
    | _, _ => False
    end.

Lemma run_simulation (n : nat) (s1 : S1) (s2 : S2) :
  rel s1 s2 ->
  match run b1 n s1, run b2 n s2 with
  | inl a, inl b => rel a b
  | inr a, inr b => relr a b
  | _, _ => False
  end.
Proof.
  revert s1 s2; induction n as [|n IH]; intros s1 s2 Hrel; cbn [run]; [exact Hrel|].
  specialize (step_related s1 s2 Hrel).
  destruct (b1 s1) as [a|a], (b2 s2) as [b|b]; try contradiction.
  - apply IH; exact step_related.
  - exact step_related.
Qed.

Lemma iter_loop_simulation (k : nat) (s1 : S1) (s2 : S2) :
  rel s1 s2 ->
  match iter_loop b1 k s1, iter_loop b2 k s2 with
  | inl a, inl b => rel a b
  | inr a, inr b => relr a b
  | _, _ => False
  end.
Proof. rewrite !iter_loop_run; apply run_simulation. Qed.
End Simulation.

(** ** The scanner over a buffer that holds the truth *)

(** X10: when the loaded buffer holds the truth (and is shorter than
    [2 ^ 52] bytes), [find_primes_near] returns, for every start, count and
    direction string, exactly the list the same loop computes with the
    trial-division oracle in place of the lookup, and leaves the world as
    it is. *)
Theorem X10_correct_index_scan_is_oracle_scan :
  forall (w : world) (buf : bytes) (number count : Z) (direction : string),
    primesdb_data w = Some buf ->
    index_correct buf ->
    len buf < 2 ^ 52 ->
    find_primes_near w number count direction
    = (Ret (oracle_scan number count direction), w).
Proof.
  intros w buf number count direction Hw Hidx Hlen.
  unfold find_primes_near; rewrite Hw.
  unfold scan_from, oracle_scan.
  pose proof (iter_loop_simulation
                (scan_body count (scan_step direction))
                (oracle_scan_body count (scan_step direction))
                (fun s o => result s = fst o /\ current s = snd o /\ scan_world s = w)
                (fun r l => r = (Ret l, w))) as Hsim.
  specialize (Hsim ltac:(
    intros s [res cur] (Hres & Hcur & Hsw); cbn [fst snd] in Hres, Hcur;
    unfold scan_body, oracle_scan_body; rewrite Hres, Hcur, Hsw;
    destruct ((len res <? count) && (cur >? 1) && (cur <? 10 ^ 10)) eqn:Hg;
      [|reflexivity];
    apply andb_prop in Hg as [Hg Hhi]; apply andb_prop in Hg as [_ Hlo];
    rewrite (is_prime_primesdb_loaded w buf) by exact Hw;
    rewrite lookup_correct_index;
      [destruct (is_prime cur); cbn [result current scan_world fst snd]; auto
      | exact Hidx | exact Hlen |];
    apply Z.ltb_lt in Hhi;
    apply Z.div_lt_upper_bound; [lia|];
    assert (10 ^ 10 < 10 * 2 ^ 1024) by (apply Z.ltb_lt; vm_compute; reflexivity);
    lia)).
  specialize (Hsim scan_fuel (ScanState [] (scan_start number direction) w)
                   ([], scan_start number direction)
                   (conj eq_refl (conj eq_refl eq_refl))).
  destruct (iter_loop (scan_body count (scan_step direction)) scan_fuel _) as [s|r],
           (iter_loop (oracle_scan_body count (scan_step direction)) scan_fuel _)
             as [[res cur]|l]; try contradiction.
  - destruct Hsim as (-> & _ & ->); reflexivity.
  - exact Hsim.
Qed.

Lemma X10_correct_index_scan_is_oracle_scan_witness :
  find_primes_near (loaded sample_index) 100 3 "larger"
  = (Ret (oracle_scan 100 3 "larger"), loaded sample_index).
Proof.
  refine (X10_correct_index_scan_is_oracle_scan (loaded sample_index) sample_index
            100 3 "larger" eq_refl sample_index_correct _).
  reflexivity.
Defined.

(** Over a buffer that holds the truth the lookup reports exactly the
    primes, among the numbers of the scanned range. *)
Lemma reported_prime_correct (buf : bytes) (q : Z) :
  index_correct buf -> len buf < 2 ^ 52 -> q < 10 ^ 10 ->
  reported_prime buf q <-> prime_number q.
Proof.
  intros Hidx Hlen Hq; unfold reported_prime.
  rewrite lookup_correct_index; [| exact Hidx | exact Hlen |].
  - rewrite <- is_prime_correct.
    split; [intros H; injection H as H; exact H | intros ->; reflexivity].
  - apply Z.div_lt_upper_bound; [lia|].
    assert (10 ^ 10 < 10 * 2 ^ 1024) by (apply Z.ltb_lt; vm_compute; reflexivity).
    lia.
Qed.

(** X11: over a buffer that holds the truth, and for a query from 1 to
    [10 ^ 10], [find_closest_primes] returns the nearest primes: every entry
    is a prime other than the query with its distance to the query, the
    primes are pairwise distinct, and every prime below [10 ^ 10] other than
    the query either is among them, or the result has [count] entries none
    of which lies farther from the query. *)
Theorem X11_correct_index_gives_nearest_primes :
  forall (w : world) (buf : bytes) (number count : Z) (has_letters : bool),
    primesdb_data w = Some buf ->
    index_correct buf ->
    len buf < 2 ^ 52 ->
    1 <= number <= 10 ^ 10 ->
    let out := fst (find_closest_primes w number count has_letters) in
    Forall (fun e => prime_number (prime_base10 e) /\
                     prime_base10 e <> number /\
                     distance e = Z.abs (prime_base10 e - number)) out /\
    NoDup (map prime_base10 out) /\
    forall q, prime_number q -> q < 10 ^ 10 -> q <> number ->
              In q (map prime_base10 out) \/
              (count <= len out /\
               Forall (fun e => distance e <= Z.abs (q - number)) out).
Proof.
  intros w buf number count has_letters Hw Hidx Hlen Hnum out; subst out.
  destruct (closest_primes_distinct w buf number count has_letters Hw)
    as (es & Heq & Hnd & Hall).
  split; [|split].
  - rewrite Heq; cbn [fst].
    apply Forall_forall; intros e He.
    rewrite Forall_forall in Hall; destruct (Hall e He) as [Hrep Hne].
    assert (In e (fst (find_closest_primes w number count has_letters))) as He'
        by (rewrite Heq; exact He).
    destruct (find_closest_primes_entries w number count has_letters e He')
      as (larger & w1 & smaller & w2 & Hl & Hs & Hin & _).
    assert (prime_base10 e < 10 ^ 10) as Hlt.
    { pose proof (find_primes_near_bounds _ _ _ _ _ _ Hl) as Hb.
      pose proof (find_primes_near_bounds _ _ _ _ _ _ Hs) as Hb'.
      rewrite Forall_forall in Hb, Hb'.
      destruct Hin as [Hin|Hin]; [apply (Hb _ Hin) | apply (Hb' _ Hin)]. }
    split; [apply (reported_prime_correct buf); assumption|].
    split; [exact Hne|].
    destruct (find_closest_primes_parts w number count has_letters)
      as (larger' & w1' & smaller' & w2' & es' & Hl' & Hs' & _ & Hmap & Heq').
    rewrite Hl in Hl'; injection Hl' as <- <-.
    rewrite Hs in Hs'; injection Hs' as <- <-.
    rewrite Heq in Heq'; injection Heq' as <- _.
    apply (in_map tuple_of) in He; rewrite Hmap in He.
    apply slice_to_In, sort_by_In in He.
    destruct (find_primes_near_larger w number count) as (l0 & w0 & Hl0 & Hup).
    rewrite Hl in Hl0; injection Hl0 as <- <-.
    destruct (find_primes_near_smaller w1 number count) as (l1 & w3 & Hs0 & Hdown).
    rewrite Hs in Hs0; injection Hs0 as <- <-.
    destruct (candidates_distance number larger smaller (tuple_of e) Hup Hdown He)
      as (Hd & _).
    exact Hd.
  - rewrite Heq; exact Hnd.
  - intros q Hq Hlt Hne.
    apply (closest_primes_nearest w buf number count has_letters q); auto.
    apply (reported_prime_correct buf); assumption.
Qed.

Lemma X11_correct_index_gives_nearest_primes_witness :
  let out := fst (find_closest_primes (loaded sample_index) 100 2 true) in
  Forall (fun e => prime_number (prime_base10 e) /\
                   prime_base10 e <> 100 /\
                   distance e = Z.abs (prime_base10 e - 100)) out /\
  NoDup (map prime_base10 out) /\
  forall q, prime_number q -> q < 10 ^ 10 -> q <> 100 ->
            In q (map prime_base10 out) \/
            (2 <= len out /\
             Forall (fun e => distance e <= Z.abs (q - 100)) out).
Proof.
  refine (X11_correct_index_gives_nearest_primes (loaded sample_index) sample_index
            100 2 true eq_refl sample_index_correct _ _).
  - reflexivity.
  - split; discriminate.
Defined.

(** ** Base 36, the other way round *)

Lemma run_deterministic {St Res : Type} (body : St -> St + Res) (n m : nat)
      (s : St) (r r' : Res) :
  run body n s = inr r -> run body m s = inr r' -> r = r'.
Proof.
  intros Hn Hm.
  pose proof (run_inr_more body n (n + m) s r Hn ltac:(lia)) as H1.
  pose proof (run_inr_more body m (n + m) s r' Hm ltac:(lia)) as H2.
  congruence.
Qed.

(** Each of the 36 digits has the value of its position in [chars]. *)
Lemma base36_digit_value (c : ascii) :
  base36_digit c ->
  exists k, 0 <= k < 36 /\ char_value c = Ret k /\ char_at chars k = Ret c /\
            (k = 0 -> c = "0"%char).
Proof.
  unfold base36_digit; cbn [chars list_ascii_of_string In].
  intros H.
  repeat (destruct H as [<-|H];
          [refine (ex_intro _ _ (conj _ (conj eq_refl (conj eq_refl _))));
           [split; [apply Z.leb_le | apply Z.ltb_lt]; reflexivity
           | intros E; try reflexivity; vm_compute in E; discriminate E]|]).
  contradiction.
Qed.

(** Decoding digits after a value [m] that is not negative gives a value
    that is not below [m]. *)
Lemma to_base10_from_digits (s : string) (m : Z) :
  Forall base36_digit (list_ascii_of_string s) -> 0 <= m ->
  exists v, to_base10_from m s = Ret v /\ m <= v.
Proof.
  revert m; induction s as [|c s IH]; intros m Hall Hm; cbn [to_base10_from].
  - exists m; split; [reflexivity | lia].
  - cbn [list_ascii_of_string] in Hall; inversion Hall as [|? ? Hc Hs]; subst.
    destruct (base36_digit_value c Hc) as (k & Hk & -> & _); cbn [bind].
    destruct (IH (m * 36 + k) Hs ltac:(lia)) as (v & Hv & Hle).
    exists v; split; [exact Hv | lia].
Qed.

(** The loop of [to_base36], started on the value of a positive [m]
    followed by the digits [s], peels the digits off again. *)
Lemma to_base36_peels (s : string) (m v : Z) (acc : string) :
  Forall base36_digit (list_ascii_of_string s) -> 0 < m ->
  to_base10_from m s = Ret v ->
  run to_base36_body (String.length s) (v, acc) = inl (m, (s ++ acc)%string).
Proof.
  revert m v acc; induction s as [|c s IH]; intros m v acc Hall Hm Hv.
  - cbn in Hv; injection Hv as <-; reflexivity.
  - cbn [list_ascii_of_string] in Hall; inversion Hall as [|? ? Hc Hs]; subst.
    cbn [to_base10_from] in Hv.
    destruct (base36_digit_value c Hc) as (k & Hk & Hval & Hat & _).
    rewrite Hval in Hv; cbn [bind] in Hv.
    cbn [String.length].
    replace (S (String.length s)) with (String.length s + 1)%nat by lia.
    rewrite run_add, (IH (m * 36 + k) v acc Hs ltac:(lia) Hv).
    cbn [run]; unfold to_base36_body.
    destruct (Z.gtb_spec (m * 36 + k) 0) as [_|]; [|lia].
    replace ((m * 36 + k) mod 36) with k
      by (rewrite Z.add_comm, Z.mod_add, Z.mod_small by lia; reflexivity).
    replace ((m * 36 + k) / 36) with m
      by (rewrite Z.add_comm, Z.div_add, Z.div_small by lia; reflexivity).
    rewrite Hat; reflexivity.
Qed.

(** X12: decoding and encoding again gives the string back, for the
    strings [to_base36] can produce: on the string 0 and on every string of
    digits 0-9 and A-Z that does not start with 0, [to_base10] returns a
    number that is not negative and that [to_base36] renders as that very
    string. *)
Theorem X12_base36_decode_encode :
  forall s : string,
    canonical_base36 s ->
    exists n, to_base10 s = Ret n /\ 0 <= n /\ to_base36 n = Ret s.
Proof.
  intros s [->|(c & s' & -> & Hc & Hnz & Hs')].
  { exists 0; split; [reflexivity|]; split; [lia | reflexivity]. }
  destruct (base36_digit_value c Hc) as (k & Hk & Hval & Hat & Hzero).
  assert (0 < k) as Hkpos.
  { destruct (Z.eq_dec k 0) as [E|]; [elim Hnz; auto | lia]. }
  destruct (to_base10_from_digits s' k Hs' ltac:(lia)) as (v & Hv & Hle).
  exists v.
  assert (to_base10 (String c s') = Ret v) as Hdec.
  { unfold to_base10; cbn [to_base10_from]; rewrite Hval; cbn [bind]; exact Hv. }
  split; [exact Hdec|]. split; [lia|].
  unfold to_base36.
  destruct (Z.eqb_spec v 0) as [|_]; [lia|].
  destruct (to_base36_loop_terminates v) as [r Hr]; rewrite Hr.
  rewrite iter_loop_run in Hr.
  assert (run to_base36_body (String.length s' + 2) (v, EmptyString)
          = inr (Ret (String c s'))) as Hrun.
  { rewrite run_add, (to_base36_peels s' k v EmptyString Hs' Hkpos Hv).
    cbn [run]; unfold to_base36_body.
    destruct (Z.gtb_spec k 0) as [_|]; [|lia].
    rewrite Z.mod_small, Hat, Z.div_small by lia.
    cbn.
    replace (s' ++ EmptyString)%string with s'; [reflexivity|].
    clear; induction s' as [|a s' IH]; cbn; [reflexivity | f_equal; exact IH]. }
  rewrite (run_deterministic _ _ _ _ _ _ Hr Hrun); reflexivity.
Qed.

Lemma X12_base36_decode_encode_witness :
  exists n, to_base10 "AB12" = Ret n /\ 0 <= n /\ to_base36 n = Ret "AB12"%string.
Proof.
  refine (X12_base36_decode_encode "AB12" _).
  right; exists "A"%char, "B12"%string.
  split; [reflexivity|]. split; [cbn; tauto|]. split; [discriminate|].
  repeat constructor; cbn; tauto.
Defined.

(** X13: for every negative integer [to_base36] returns the empty string,
    the loop body never running; decoding it gives 0, not the number. *)
Theorem X13_base36_of_negative_is_empty :
  forall n : Z,
    n < 0 ->
    to_base36 n = Ret EmptyString /\
    (s <- to_base36 n ;; to_base10 s) = Ret 0.
Proof.
  intros n Hn.
  assert (to_base36 n = Ret EmptyString) as H.
  { unfold to_base36.
    destruct (Z.eqb_spec n 0) as [|_]; [lia|].
    rewrite (iter_loop_exit_now _ _ _ (Ret EmptyString)); [reflexivity|].
    unfold to_base36_body.
    destruct (Z.gtb_spec n 0) as [|_]; [lia | reflexivity]. }
  rewrite H; split; reflexivity.
Qed.

Lemma X13_base36_of_negative_is_empty_witness :
  to_base36 (-36) = Ret EmptyString /\
  (s <- to_base36 (-36) ;; to_base10 s) = Ret 0.
Proof.
  refine (X13_base36_of_negative_is_empty (-36) _).
  reflexivity.
Defined.

(** The value of a decimal digit or an ASCII letter, the same for both
    cases of a letter. *)
Lemma char_value_alnum (c : ascii) :
  ascii_alnum c ->
  exists k, 0 <= k < 36 /\ char_value c = Ret k /\
            char_value (ascii_upper c) = Ret k.
Proof.
  destruct c as [b0 b1 b2 b3 b4 b5 b6 b7].
  unfold ascii_alnum.
  destruct b0, b1, b2, b3, b4, b5, b6, b7;
    cbn; intros H;
    try (exfalso; lia);
    eexists; (split; [|split; reflexivity]); lia.
Qed.

Lemma to_base10_from_alnum (s : string) (m : Z) :
  Forall ascii_alnum (list_ascii_of_string s) ->
  exists v, to_base10_from m s = Ret v /\
            to_base10_from m (string_upper s) = Ret v /\
            (0 <= m -> m * 36 ^ Z.of_nat (String.length s) <= v
                       < (m + 1) * 36 ^ Z.of_nat (String.length s)).
Proof.
  revert m; induction s as [|c s IH]; intros m Hall;
    cbn [to_base10_from string_upper String.length].
  - exists m; repeat split; cbn; lia.
  - cbn [list_ascii_of_string] in Hall; inversion Hall as [|? ? Hc Hs]; subst.
    destruct (char_value_alnum c Hc) as (k & Hk & -> & ->); cbn [bind].
    destruct (IH (m * 36 + k) Hs) as (v & Hv & Hu & Hb).
    exists v; split; [exact Hv|]. split; [exact Hu|].
    intros Hm; specialize (Hb ltac:(lia)).
    rewrite Nat2Z.inj_succ, Z.pow_succ_r by lia.
    assert (0 < 36 ^ Z.of_nat (String.length s)) by (apply Z.pow_pos_nonneg; lia).
    nia.
Qed.

(** X14: on a string of decimal digits and ASCII letters [to_base10] raises
    nothing and returns a number from 0 to [36 ^ len - 1]; lower-case
    letters count as their upper-case forms. *)
Theorem X14_to_base10_alphanumeric :
  forall s : string,
    Forall ascii_alnum (list_ascii_of_string s) ->
    exists v, to_base10 s = Ret v /\
              0 <= v < 36 ^ Z.of_nat (String.length s) /\
              to_base10 (string_upper s) = Ret v.
Proof.
  intros s Hs.
  destruct (to_base10_from_alnum s 0 Hs) as (v & Hv & Hu & Hb).
  exists v; split; [exact Hv|]. split; [|exact Hu].
  specialize (Hb ltac:(lia)); lia.
Qed.

Lemma X14_to_base10_alphanumeric_witness :
  exists v, to_base10 "ab9Z" = Ret v /\
            0 <= v < 36 ^ Z.of_nat (String.length "ab9Z") /\
            to_base10 (string_upper "ab9Z") = Ret v.
Proof.
  refine (X14_to_base10_alphanumeric "ab9Z" _).
  repeat constructor; unfold ascii_alnum; cbn; lia.
Defined.

(** ** The loader *)

(** X15: a scan calls the loader at most once, however long it runs: it
    leaves a world that holds a buffer as it is, and a world without one as
    a single call of [download_primesdb] leaves it. *)
Theorem X15_scan_calls_loader_at_most_once :
  forall (w : world) (number count : Z) (direction : string),
    snd (find_primes_near w number count direction)
    = match primesdb_data w with
      | Some _ => w
      | None => snd (download_primesdb w)
      end.
Proof.
  intros w number count direction.
  destruct (find_primes_near_ways w number count direction)
    as [(w1 & buf & Hw1 & Hhow & ->)|(Hw & _ & ->)].
  - destruct (scan_from_loaded w1 buf number count direction Hw1)
      as (s' & _ & _ & ->).
    cbn [snd].
    destruct Hhow as [[Hw ->]|[Hw Hd]]; rewrite Hw; [reflexivity|].
    rewrite Hd; reflexivity.
  - rewrite Hw; reflexivity.
Qed.

(** X16: when no buffer is loaded and the first call of the loader returns
    [False], the upward scan of [find_closest_primes] returns nothing, and
    every entry of the result lies below the query, whatever the downward
    scan finds after a second attempt (or with a buffer the failed call
    left behind). *)
Theorem X16_failed_load_loses_upward_half :
  forall (w : world) (number count : Z) (has_letters : bool),
    primesdb_data w = None ->
    fst (download_primesdb w) = false ->
    find_primes_near w number count "larger" = (Ret [], snd (download_primesdb w)) /\
    Forall (fun e => prime_base10 e < number)
           (fst (find_closest_primes w number count has_letters)).
Proof.
  intros w number count has_letters Hw Hfail.
  assert (find_primes_near w number count "larger"
          = (Ret [], snd (download_primesdb w))) as Hup.
  { destruct (find_primes_near_ways w number count "larger")
      as [(w1 & buf & _ & Hhow & _)|(_ & _ & ->)]; [|reflexivity].
    destruct Hhow as [[Hw' _]|[_ Hd]]; [congruence|].
    rewrite Hd in Hfail; discriminate. }
  split; [exact Hup|].
  destruct (find_closest_primes_parts w number count has_letters)
    as (larger & w1 & smaller & w2 & es & Hl & Hs & _ & Hmap & ->).
  cbn [fst].
  rewrite Hup in Hl; injection Hl as <- <-.
  destruct (find_primes_near_smaller (snd (download_primesdb w)) number count)
    as (l & w' & Hs' & Hbelow).
  rewrite Hs in Hs'; injection Hs' as <- <-.
  apply Forall_forall; intros e He.
  apply (in_map tuple_of) in He; rewrite Hmap in He.
  apply slice_to_In, sort_by_In in He.
  unfold candidates in He; cbn [map app] in He.
  apply in_map_iff in He as (p & Hp & Hin).
  unfold tuple_of in Hp; injection Hp as <- _.
  rewrite Forall_forall in Hbelow; exact (Hbelow p Hin).
Qed.

Lemma X16_failed_load_loses_upward_half_witness :
  find_primes_near (World None [LoadedThenRaised sample_index]) 100 2 "larger"
  = (Ret [], loaded sample_index) /\
  Forall (fun e => prime_base10 e < 100)
         (fst (find_closest_primes (World None [LoadedThenRaised sample_index])
                                   100 2 false)).
Proof.
  refine (X16_failed_load_loses_upward_half
            (World None [LoadedThenRaised sample_index]) 100 2 false _ _);
    reflexivity.
Defined.

(** ** The in-memory table *)

Lemma In_range (start stop p : Z) : In p (range start stop) <-> start <= p < stop.
Proof.
  unfold range; rewrite in_map_iff; split.
  - intros (i & <- & Hi); apply in_seq in Hi; lia.
  - intros Hp; exists (Z.to_nat (p - start)); split; [lia | apply in_seq; lia].
Qed.

Lemma range_length (start stop : Z) :
  List.length (range start stop) = Z.to_nat (stop - start).
Proof. unfold range; rewrite length_map, length_seq; reflexivity. Qed.

Lemma seq_pairs (a n : nat) : ForallOrdPairs lt (seq a n).
Proof.
  revert a; induction n as [|n IH]; intros a; cbn; constructor; [|apply IH].
  apply Forall_forall; intros b Hb; apply in_seq in Hb; lia.
Qed.

Lemma range_pairs (start stop : Z) : ForallOrdPairs Z.lt (range start stop).
Proof.
  unfold range; apply pairs_map.
  refine (pairs_impl _ _ _ _ (seq_pairs 0 _)); intros a b _ _ H; lia.
Qed.

Lemma pairs_filter {A : Type} (R : A -> A -> Prop) (f : A -> bool) (l : list A) :
  ForallOrdPairs R l -> ForallOrdPairs R (filter f l).
Proof.
  intros H; induction H as [|a l Ha Hl IH]; cbn; [constructor|].
  destruct (f a); [constructor; [|exact IH] | exact IH].
  apply Forall_forall; intros b Hb; apply filter_In in Hb as [Hb _].
  rewrite Forall_forall in Ha; exact (Ha b Hb).
Qed.

Lemma fold_left_append_filter {A : Type} (f : A -> bool) (l acc : list A) :
  fold_left (fun acc i => if f i then acc ++ [i] else acc) l acc
  = acc ++ filter f l.
Proof.
  revert acc; induction l as [|x l IH]; intros acc; cbn [fold_left filter].
  - rewrite app_nil_r; reflexivity.
  - rewrite IH; destruct (f x); [rewrite <- app_assoc|]; reflexivity.
Qed.

(** The loop appends, in order, the numbers of the range that the oracle
    accepts. *)
Lemma test_primes_eq :
  test_primes = small_primes ++ filter is_prime (range 100 10000).
Proof. apply fold_left_append_filter. Qed.

Lemma small_primes_spec (p : Z) :
  In p small_primes <-> prime_number p /\ p <= 71.
Proof.
  split.
  - unfold small_primes; cbn [In]; intros H.
    repeat (destruct H as [<-|H];
            [split; [apply is_prime_correct; vm_compute; reflexivity | lia]|]).
    contradiction.
  - intros [Hp Hle].
    assert (2 <= p) as H2 by (destruct Hp; assumption).
    apply is_prime_correct in Hp.
    pose proof (Z_range_forallb
                  (fun n => negb (is_prime n) || in_list n small_primes)
                  2 70 ltac:(vm_compute; reflexivity) p ltac:(lia)) as Hc.
    cbv beta in Hc; rewrite Hp in Hc; cbn [negb orb] in Hc.
    unfold in_list in Hc; apply existsb_exists in Hc as (x & Hx & Heq).
    apply Z.eqb_eq in Heq; subst x; exact Hx.
Qed.

Lemma map_fst_combine {A B : Type} (l : list A) (l' : list B) :
  List.length l = List.length l' -> map fst (combine l l') = l.
Proof.
  revert l'; induction l as [|a l IH]; intros [|b l'] H; cbn in *;
    try discriminate; [reflexivity|].
  f_equal; apply IH; lia.
Qed.

Lemma map_snd_combine {A B : Type} (l : list A) (l' : list B) :
  List.length l = List.length l' -> map snd (combine l l') = l'.
Proof.
  revert l'; induction l as [|a l IH]; intros [|b l'] H; cbn in *;
    try discriminate; [reflexivity|].
  f_equal; apply IH; lia.
Qed.

Lemma enumerate_fst {A : Type} (l : list A) :
  map fst (enumerate l) = range 0 (len l).
Proof.
  unfold enumerate; apply map_fst_combine.
  rewrite range_length; unfold len; lia.
Qed.

Lemma enumerate_snd {A : Type} (l : list A) : map snd (enumerate l) = l.
Proof.
  unfold enumerate; apply map_snd_combine.
  rewrite range_length; unfold len; lia.
Qed.

(** The rows built from a list carry its elements, under the ids from 1
    on. *)
Lemma enumerate_rows (l : list Z) :
  let rows := map (fun ip => PrimeRow (fst ip + 1) (snd ip) 0) (enumerate l) in
  map value rows = l /\ map row_id rows = range 1 (len rows + 1).
Proof.
  intros rows; subst rows; split.
  - rewrite map_map; cbn [value]; apply enumerate_snd.
  - assert (len (map (fun ip => PrimeRow (fst ip + 1) (snd ip) 0) (enumerate l))
            = len l) as ->.
    { unfold len; rewrite length_map, <- (length_map fst), enumerate_fst, range_length.
      unfold len; lia. }
    rewrite map_map; cbn [row_id].
    rewrite <- (map_map fst (fun i => i + 1)), enumerate_fst.
    unfold range; rewrite map_map.
    replace (Z.to_nat (len l + 1 - 1)) with (Z.to_nat (len l - 0)) by lia.
    apply map_ext; intros i; lia.
Qed.

(** What the loop of [get_db_connection] leaves in [test_primes]. *)
Lemma test_primes_spec :
  (forall p, In p test_primes <->
             prime_number p /\ (p <= 71 \/ 100 <= p < 10000)) /\
  StronglySorted Z.lt test_primes.
Proof.
  rewrite test_primes_eq; split.
  - intros p; rewrite in_app_iff, small_primes_spec.
    rewrite filter_In, In_range, is_prime_correct; tauto.
  - apply pairs_sorted, pairs_app.
    + unfold small_primes; repeat constructor; lia.
    + apply pairs_filter, range_pairs.
    + intros a b Ha Hb.
      apply small_primes_spec in Ha as [_ Ha].
      apply filter_In in Hb as [Hb _]; apply In_range in Hb; lia.
Qed.

(** X17: the table [get_db_connection] builds in memory holds, in
    increasing order and under the ids 1, 2, 3, ..., exactly the primes up
    to 71 and the primes from 100 to 9999: the five primes between 72 and
    99 and every prime from 10000 on are missing. *)
Theorem X17_memory_table_contents :
  (forall p, In p (map value inserted_rows) <->
             prime_number p /\ (p <= 71 \/ 100 <= p < 10000)) /\
  StronglySorted Z.lt (map value inserted_rows) /\
  map row_id inserted_rows = range 1 (len inserted_rows + 1).
Proof.
  unfold inserted_rows.
  destruct (enumerate_rows test_primes) as [Hval Hid].
  destruct test_primes_spec as [Hin Hsorted].
  generalize dependent test_primes; intros l Hval Hid Hin Hsorted.
  rewrite Hval; split; [exact Hin | split; [exact Hsorted | exact Hid]].
Qed.

(** ** The combinations shown by [search] *)

Lemma find_closest_primes_length (w : world) (number count : Z) (has_letters : bool) :
  len (fst (find_closest_primes w number count has_letters)) <= Z.max 0 count.
Proof.
  destruct (find_closest_primes_parts w number count has_letters)
    as (larger & w1 & smaller & w2 & es & Hl & Hs & _ & Hmap & ->).
  cbn [fst]; unfold len; rewrite <- (length_map tuple_of), Hmap.
  destruct (Z_lt_ge_dec count 0) as [Hneg|Hpos].
  - assert (fst (find_primes_near w number count "larger") = Ret []) as Hl'
        by (apply find_primes_near_no_room; lia).
    assert (fst (find_primes_near w1 number count "smaller") = Ret []) as Hs'
        by (apply find_primes_near_no_room; lia).
    rewrite Hl in Hl'; rewrite Hs in Hs'; cbn [fst] in Hl', Hs'.
    injection Hl' as ->; injection Hs' as ->.
    unfold slice_to; cbn; destruct (count <? 0); rewrite firstn_nil; cbn; lia.
  - pose proof (slice_to_length (sort_by snd (candidates number larger smaller))
                                count ltac:(lia)) as H.
    unfold len in H; lia.
Qed.

Lemma find_closest_primes_nonneg (w : world) (number count : Z) (has_letters : bool) :
  Forall (fun e => 0 <= distance e)
         (fst (find_closest_primes w number count has_letters)).
Proof.
  destruct (find_closest_primes_shape w number count has_letters)
    as (larger & smaller & es & w' & Hup & Hdown & -> & Hmap).
  cbn [fst]; apply Forall_forall; intros e He.
  apply (in_map tuple_of) in He; rewrite Hmap in He.
  apply slice_to_In, sort_by_In in He.
  destruct (candidates_distance _ _ _ _ Hup Hdown He) as (_ & Hnn & _).
  exact Hnn.
Qed.

Lemma flat_map_length_const {A B : Type} (f : A -> list B) (l : list A) (k : nat) :
  (forall a, List.length (f a) = k) ->
  List.length (flat_map f l) = (List.length l * k)%nat.
Proof.
  intros Hf; induction l as [|a l IH]; cbn [flat_map List.length]; [reflexivity|].
  rewrite length_app, Hf, IH; lia.
Qed.

Lemma map_flat_map {A B C : Type} (g : B -> C) (f : A -> list B) (l : list A) :
  map g (flat_map f l) = flat_map (fun a => map g (f a)) l.
Proof.
  induction l as [|a l IH]; cbn [flat_map map]; [reflexivity|].
  rewrite map_app, IH; reflexivity.
Qed.

Lemma NoDup_flat_map {A B : Type} (f : A -> list B) (l : list A) :
  NoDup l ->
  (forall a, In a l -> NoDup (f a)) ->
  (forall a b x, In a l -> In b l -> In x (f a) -> In x (f b) -> a = b) ->
  NoDup (flat_map f l).
Proof.
  intros Hnd; induction Hnd as [|a l Ha Hl IH]; intros Hin Hdis;
    cbn [flat_map]; [constructor|].
  apply NoDup_app.
  - apply Hin; left; reflexivity.
  - apply IH.
    + intros b Hb; apply Hin; right; exact Hb.
    + intros b c x Hb Hc; apply Hdis; right; assumption.
  - intros x Hx Hx'.
    apply in_flat_map in Hx' as (b & Hb & Hxb).
    assert (a = b) by (apply (Hdis a b x); [left; reflexivity | right; exact Hb | exact Hx | exact Hxb]).
    subst b; contradiction.
Qed.

Lemma NoDup_map_eq {A B : Type} (f : A -> B) (l : list A) (a b : A) :
  NoDup (map f l) -> In a l -> In b l -> f a = f b -> a = b.
Proof.
  induction l as [|x l IH]; cbn [map In]; intros Hnd Ha Hb Heq; [contradiction|].
  inversion Hnd as [|? ? Hx Hl]; subst.
  destruct Ha as [->|Ha], Hb as [->|Hb]; auto.
  - elim Hx; rewrite Heq; apply in_map; exact Hb.
  - elim Hx; rewrite <- Heq; apply in_map; exact Ha.
Qed.

Lemma NoDup_map_injective {A B : Type} (f : A -> B) (l : list A) :
  (forall x y, f x = f y -> x = y) -> NoDup l -> NoDup (map f l).
Proof.
  intros Hinj H; induction H as [|a l Ha Hl IH]; cbn [map]; constructor;
    [|exact IH].
  intros Hin; apply in_map_iff in Hin as (b & Heq & Hb).
  apply Hinj in Heq; subst b; contradiction.
Qed.

Lemma len_range (start stop : Z) : len (range start stop) = Z.max 0 (stop - start).
Proof. unfold len; rewrite range_length; lia. Qed.

Lemma range_NoDup (start stop : Z) : NoDup (range start stop).
Proof.
  apply (pairs_irrefl_NoDup Z.lt); [intros a; apply Z.lt_irrefl | apply range_pairs].
Qed.

Lemma enumerate_NoDup {A : Type} (l : list A) : NoDup (map fst (enumerate l)).
Proof. rewrite enumerate_fst; apply range_NoDup. Qed.

Lemma enumerate_length {A : Type} (l : list A) :
  List.length (enumerate l) = List.length l.
Proof.
  rewrite <- (length_map snd), enumerate_snd; reflexivity.
Qed.

Lemma enumerate_In {A : Type} (l : list A) (ix : Z * A) :
  In ix (enumerate l) -> In (snd ix) l.
Proof.
  intros H; apply (in_map snd) in H; rewrite enumerate_snd in H; exact H.
Qed.

(** No two of the dicts of [all_combinations] carry the same index pair. *)
Lemma all_combinations_NoDup (part1_primes part2_primes : list entry) :
  NoDup (map index (all_combinations part1_primes part2_primes)).
Proof.
  unfold all_combinations; rewrite map_flat_map.
  apply NoDup_flat_map.
  - apply (NoDup_map_inv fst), enumerate_NoDup.
  - intros ip1 _; rewrite map_map; cbn [index].
    rewrite <- (map_map fst (fun j => Some (fst ip1, j))).
    apply NoDup_map_injective; [|apply enumerate_NoDup].
    intros j j' H; injection H as ->; reflexivity.
  - intros a b x Ha Hb Hxa Hxb.
    rewrite map_map in Hxa, Hxb; cbn [index] in Hxa, Hxb.
    apply in_map_iff in Hxa as (ja & <- & _).
    apply in_map_iff in Hxb as (jb & Heq & _).
    injection Heq as Heq _.
    apply (NoDup_map_eq fst (enumerate part1_primes));
      [apply enumerate_NoDup | assumption | assumption | symmetry; exact Heq].
Qed.

Lemma all_combinations_In (part1_primes part2_primes : list entry) (c : combination) :
  In c (all_combinations part1_primes part2_primes) ->
  In (part1 c) part1_primes /\ In (part2 c) part2_primes /\
  total_distance c = distance (part1 c) + distance (part2 c).
Proof.
  unfold all_combinations; intros H.
  apply in_flat_map in H as (ip1 & H1 & H).
  apply in_map_iff in H as (jp2 & <- & H2); cbn.
  split; [apply enumerate_In; exact H1|].
  split; [apply enumerate_In; exact H2 | reflexivity].
Qed.

Lemma shown_combinations_In (part1_primes part2_primes : list entry) (c : combination) :
  In c (shown_combinations part1_primes part2_primes) ->
  In (part1 c) part1_primes /\ In (part2 c) part2_primes /\
  total_distance c = distance (part1 c) + distance (part2 c).
Proof.
  unfold shown_combinations; intros H.
  apply in_flat_map in H as (p1 & H1 & H).
  apply in_map_iff in H as (p2 & <- & H2); cbn; auto.
Qed.

(** Indexing with positions inside the list raises nothing and picks the
    elements at those positions. *)
Lemma comprehension_getitem {A : Type} (l : list A) (idx : list Z) :
  Forall (fun i => 0 <= i < len l) idx ->
  exists out, comprehension (list_getitem l) idx = Ret out /\
              Forall2 (fun i c => nth_error l (Z.to_nat i) = Some c) idx out.
Proof.
  induction 1 as [|i idx Hi Hidx (out & Hout & Hall)]; cbn [comprehension].
  - exists []; split; [reflexivity | constructor].
  - unfold list_getitem at 1.
    destruct (Z.ltb_spec i 0) as [|_]; [lia|].
    destruct (Z.ltb_spec i 0) as [|_]; [lia|].
    destruct (Z.leb_spec (len l) i) as [|_]; [lia|]; cbn [orb].
    destruct (nth_error l (Z.to_nat i)) as [c|] eqn:Hn.
    + rewrite Hout; cbn [bind]; exists (c :: out); split; [reflexivity|].
      constructor; assumption.
    + apply nth_error_None in Hn; unfold len in Hi; lia.
Qed.

Lemma picked_In {A : Type} (l : list A) (idx : list Z) (out : list A) (c : A) :
  Forall2 (fun i c => nth_error l (Z.to_nat i) = Some c) idx out ->
  In c out -> exists i, In i idx /\ nth_error l (Z.to_nat i) = Some c.
Proof.
  induction 1 as [|i c' idx out Hi Hall IH]; cbn [In]; [contradiction|].
  intros [<-|Hc]; [exists i; auto|].
  destruct (IH Hc) as (i' & Hi' & Hn); exists i'; auto.
Qed.

(** Elements picked at distinct positions of a list whose images under
    [f] are distinct have distinct images. *)
Lemma picked_NoDup {A B : Type} (f : A -> B) (l : list A) (idx : list Z)
      (out : list A) :
  NoDup (map f l) -> NoDup idx -> Forall (fun i => 0 <= i) idx ->
  Forall2 (fun i c => nth_error l (Z.to_nat i) = Some c) idx out ->
  NoDup (map f out).
Proof.
  intros Hl Hnd Hpos Hall; induction Hall as [|i c idx out Hi Hall IH];
    cbn [map]; [constructor|].
  inversion Hnd as [|? ? Hni Hnd']; subst.
  inversion Hpos as [|? ? Hi0 Hpos']; subst.
  constructor; [|apply IH; assumption].
  intros Hin; apply in_map_iff in Hin as (c' & Heq & Hc').
  destruct (picked_In l idx out c' Hall Hc') as (i' & Hi' & Hn').
  assert (0 <= i') as Hi'0 by (rewrite Forall_forall in Hpos'; auto).
  assert (Z.to_nat i = Z.to_nat i') as E.
  { apply (proj1 (NoDup_nth_error (map f l)) Hl).
    - rewrite length_map; apply nth_error_Some; rewrite Hi; discriminate.
    - rewrite !nth_error_map, Hi, Hn'; cbn; f_equal; symmetry; exact Heq. }
  assert (i = i') by lia; subst i'; contradiction.
Qed.

(** X18: whatever the two queries, the requested count and the world,
    the block of [search] that fills [random_combinations] raises nothing
    and yields at most nine combinations, in the branch [count <= 3]
    because each list of closest primes has at most [count] entries.  Each
    combination pairs an entry of the first list with one of the second and
    carries the sum of their distances, which is not negative; in the
    sampling branch no index pair occurs twice.  [random.sample] is any
    function that returns the requested number of elements of the
    population, from distinct positions. *)
Theorem X18_at_most_nine_combinations :
  forall (sample : list Z -> Z -> list Z) (w w' : world) (number1 number2 count : Z)
         (has_letters1 has_letters2 : bool),
    valid_sample sample ->
    let part1_primes := fst (find_closest_primes w number1 count has_letters1) in
    let part2_primes := fst (find_closest_primes w' number2 count has_letters2) in
    exists l,
      random_combinations sample count part1_primes part2_primes = Ret l /\
      len l <= max_combinations /\
      Forall (fun c => In (part1 c) part1_primes /\ In (part2 c) part2_primes /\
                       total_distance c = distance (part1 c) + distance (part2 c) /\
                       0 <= total_distance c) l /\
      (3 < count -> NoDup (map index l)).
Proof.
  intros sample w w' number1 number2 count h1 h2 Hsample p1 p2.
  pose proof (find_closest_primes_length w number1 count h1) as Hlen1.
  pose proof (find_closest_primes_length w' number2 count h2) as Hlen2.
  pose proof (find_closest_primes_nonneg w number1 count h1) as Hnn1.
  pose proof (find_closest_primes_nonneg w' number2 count h2) as Hnn2.
  fold p1 in Hlen1, Hnn1; fold p2 in Hlen2, Hnn2.
  clearbody p1 p2.
  rewrite Forall_forall in Hnn1, Hnn2.
  assert (forall c, In (part1 c) p1 /\ In (part2 c) p2 /\
                    total_distance c = distance (part1 c) + distance (part2 c) ->
                    In (part1 c) p1 /\ In (part2 c) p2 /\
                    total_distance c = distance (part1 c) + distance (part2 c) /\
                    0 <= total_distance c) as Hfill.
  { intros c (H1 & H2 & Ht); repeat split; auto.
    specialize (Hnn1 _ H1); specialize (Hnn2 _ H2); lia. }
  unfold random_combinations.
  destruct (Z.leb_spec count 3) as [Hsmall|Hbig].
  - exists (shown_combinations p1 p2); split; [reflexivity|].
    split; [|split; [|lia]].
    + unfold len, shown_combinations.
      rewrite (flat_map_length_const _ _ (List.length p2))
        by (intros a; apply length_map).
      unfold len, max_combinations in *; nia.
    + apply Forall_forall; intros c Hc.
      apply Hfill, shown_combinations_In, Hc.
  - set (all := all_combinations p1 p2).
    destruct (Z.gtb_spec (len all) max_combinations) as [Hmany|Hfew].
    + destruct (Hsample (range 0 (len all)) max_combinations)
        as (Hk & Hincl & Hnd).
      { rewrite len_range; unfold max_combinations in *; lia. }
      specialize (Hnd (range_NoDup _ _)).
      set (random_indices := sample (range 0 (len all)) max_combinations) in *.
      assert (Forall (fun i => 0 <= i < len all) random_indices) as Hin.
      { apply Forall_forall; intros i Hi; apply In_range, Hincl, Hi. }
      destruct (comprehension_getitem all random_indices Hin) as (out & -> & Hpick).
      exists out; split; [reflexivity|].
      split; [|split].
      * unfold len in *; rewrite <- (Forall2_length Hpick); lia.
      * apply Forall_forall; intros c Hc.
        destruct (picked_In all random_indices out c Hpick Hc) as (i & _ & Hn).
        apply Hfill, all_combinations_In; eapply nth_error_In; exact Hn.
      * intros _.
        apply (picked_NoDup index all random_indices out);
          [apply all_combinations_NoDup | exact Hnd | | exact Hpick].
        eapply Forall_impl; [|exact Hin]; cbn; intros; lia.
    + exists all; split; [reflexivity|].
      split; [lia|]. split.
      * apply Forall_forall; intros c Hc; apply Hfill, all_combinations_In, Hc.
      * intros _; apply all_combinations_NoDup.
Qed.

Lemma firstn_valid_sample :
  valid_sample (fun population k => firstn (Z.to_nat k) population).
Proof.
  intros population k Hk; split; [|split].
  - unfold len in *; rewrite length_firstn; lia.
  - intros x; apply firstn_In.
  - apply NoDup_firstn.
Qed.

Lemma X18_at_most_nine_combinations_witness :
  let part1_primes := fst (find_closest_primes (loaded sample_index) 100 4 false) in
  let part2_primes := fst (find_closest_primes (loaded sample_index) 50 4 true) in
  exists l,
    random_combinations (fun population k => firstn (Z.to_nat k) population)
                        4 part1_primes part2_primes = Ret l /\
    len l <= max_combinations /\
    Forall (fun c => In (part1 c) part1_primes /\ In (part2 c) part2_primes /\
                     total_distance c = distance (part1 c) + distance (part2 c) /\
                     0 <= total_distance c) l /\
    (3 < 4 -> NoDup (map index l)).
Proof.
  exact (X18_at_most_nine_combinations
           (fun population k => firstn (Z.to_nat k) population)
           (loaded sample_index) (loaded sample_index) 100 50 4 false true
           firstn_valid_sample).
Defined.
